(** * STL-to-MILP encoder of templogic (stlmilp/stl_milp_encode.py)

    A shallow embedding of the recursive encoder [add_stl_constr] and of the
    orchestrator [build_and_solve], and the properties of the specification
    that concern them.

    Modelling conventions.
    - Numbers (signal bounds, times, robustness values, big-M constants) are
      integers [Z].
    - The module is Python 2 ([print >> f], implicit relative imports), so
      [map] and [zip] return lists: [map(max, zip( *boundss))] is a two-element
      list that is both reduced to [K] and returned.
    - The Gurobi model [m] is an external object used through a narrow
      interface; it is modelled by the chronological log of the calls made on
      it.  A variable handle is the name the variable was created with.
    - Python exceptions are modelled by an outcome [Raise e]; the model keeps
      the mutations made before the exception. *)

From Stdlib Require Import ZArith List Ascii String Lia Bool Arith.
From Stdlib Require Import Permutation.
From Stdlib Require Import DecimalString.
From Stdlib Require DecimalZ DecimalPos.
Import ListNotations.
Set Warnings "-register-all".
Local Open Scope string_scope.
Local Open Scope Z_scope.

(** ** Data model *)

(** A pair [[lo, hi]] as stored in [Signal.bounds] and as returned by the
    encoder. *)
Definition Bounds : Type := (Z * Z)%type.

(** A variable handle of the model: the name given to [addVar]. *)
Definition VarH : Type := string.

(** The object held in [f.args[0]] of an EXPR node.  [signal m t] is the
    expression of the signal at time [t], or [None] when the signal is not
    defined there; it looks up plant variables that exist before the encoder
    runs, so it is a function of the time alone. *)
Record Signal : Type := mkSignal {
  signal : Z -> option VarH;
  bounds : Bounds
}.

(** [stl.Formula]: [op], [args] and, for the temporal operators, [bounds]. *)
Inductive Formula : Type :=
| Expr (s : Signal)
| Not (f : Formula)
| And (args : list Formula)
| Or (args : list Formula)
| Always (window : Z * Z) (f : Formula)
| Next (f : Formula)
| Eventually (window : Z * Z) (f : Formula).

(** [stl.RobustnessTree]: a robustness value, an optional index into the
    start vector and a Python list of children, each of which may be [None]. *)
Inductive RobustnessTree : Type :=
| RTree (robustness : Z) (index : option Z)
        (children : list (option RobustnessTree)).

Definition robustness (tr : RobustnessTree) : Z :=
  match tr with RTree r _ _ => r end.

Definition index (tr : RobustnessTree) : option Z :=
  match tr with RTree _ i _ => i end.

Definition children (tr : RobustnessTree) : list (option RobustnessTree) :=
  match tr with RTree _ _ cs => cs end.

(** Which of [add_min_constr] / [add_max_constr] is called. *)
Inductive MinMax : Type := Min | Max.

(** The calls made on the model.  [GRB.UNDEFINED] is [None]. *)
Inductive Op : Type :=
| OAddVar (name : VarH) (lb ub : Z)          (* m.addVar(name=, lb=, ub=) *)
| OSetStart (y : VarH) (r : option Z)        (* y.start = r *)
| OConstrEq (y : VarH) (e : VarH)            (* m.addConstr(y == expr) *)
| OConstrNeg (y : VarH) (x : VarH)           (* m.addConstr(y == -x) *)
| OMinMax (k : MinMax) (label : VarH) (xx : list VarH) (K : Z)
          (nnegative : bool) (start : option Z) (start_index : option Z)
| OSetObj (y : VarH) (c : Z)                 (* fvar.setAttr("obj", c) *)
| OSetParam (p : string) (v : Z)             (* m.params.p = v *)
| OUpdate                                    (* m.update() *)
| OWrite (file : string)                     (* m.write(file) *)
| OOptimize.                                 (* m.optimize() *)

Record Model : Type := mkModel {
  model_name : string;
  calls : list Op
}.

Definition record (m : Model) (o : Op) : Model :=
  mkModel (model_name m) (calls m ++ [o])%list.

(** ** Effects: the mutated model and Python exceptions *)

Inductive Exn : Type := IndexError | AttributeError.

Inductive Res (A : Type) : Type :=
| Ok (a : A)
| Raise (e : Exn).
Arguments Ok {A} a.
Arguments Raise {A} e.

Definition M (A : Type) : Type := Model -> Model * Res A.

Definition ret {A} (a : A) : M A := fun m => (m, Ok a).

Definition raise {A} (e : Exn) : M A := fun m => (m, Raise e).

Definition bind {A B} (c : M A) (k : A -> M B) : M B :=
  fun m => match c m with
           | (m1, Ok a) => k a m1
           | (m1, Raise e) => (m1, Raise e)
           end.

Definition call (o : Op) : M unit := fun m => (record m o, Ok tt).

Declare Scope py_scope.
Delimit Scope py_scope with py.
Notation "x <- c ;; k" := (bind c (fun x => k))
  (at level 100, c at next level, right associativity) : py_scope.
Notation "c ;;; k" := (bind c (fun _ => k))
  (at level 100, right associativity) : py_scope.
Local Open Scope py_scope.

(** ** Python primitives *)

(** [str(i)] for an integer. *)
Definition str (i : Z) : string := NilZero.string_of_int (Z.to_int i).

(** [l[i]] for a list and an index [i >= 0]. *)
Definition getitem {A} (l : list A) (i : nat) : M A :=
  match nth_error l i with
  | Some a => ret a
  | None => raise IndexError
  end.

(** [range(b1, b2 + 1)]. *)
Definition range_incl (b1 b2 : Z) : list Z :=
  map (fun k => b1 + Z.of_nat k) (seq 0 (Z.to_nat (b2 + 1 - b1))).

(** [max] of a non-empty tuple, given as head and tail. *)
Definition py_max (x : Z) (xs : list Z) : Z := fold_left Z.max xs x.

(** [map(max, zip( *boundss))] for a non-empty list of pairs. *)
Definition zip_max (b : Bounds) (bs : list Bounds) : Bounds :=
  (py_max (fst b) (map fst bs), py_max (snd b) (map snd bs)).

(** [max(map(abs, bounds))]. *)
Definition max_abs (b : Bounds) : Z := Z.max (Z.abs (fst b)) (Z.abs (snd b)).

(** ** The min/max encoder of milp_util *)

(** Modelled from the spec: [add_min_constr] and [add_max_constr] of milp_util
    are not part of the sources.  The call is logged with all its arguments;
    the encoder "produces a new variable y" which the caller retrieves under
    the key [label]. *)
Definition add_minmax (k : MinMax) (label : string) (xx : list VarH) (K : Z)
    (nnegative : bool) (start : option Z) (start_index : option Z) : M VarH :=
  call (OMinMax k label xx K nnegative start start_index) ;;; ret label.

(** Modelled from the spec: [create_milp] of milp_util is not part of the
    sources; it yields a fresh model on which nothing has been called. *)
Definition create_milp (name : string) : Model := mkModel name [].

(** ** The recursive encoder *)

(** The encoder returns a Python pair [(y, bounds)] or [(None, None)]; the
    latter is [None] here. *)
Definition Enc : Type := option (VarH * Bounds).

(** The type of [add_stl_constr], through which the operator cases recurse. *)
Definition Encoder : Type :=
  string -> Formula -> Z -> option RobustnessTree -> M Enc.

(** The loops of [_stl_and_or] and [_stl_always_eventually]: run [body] on
    every element, with its position, and append the results that are not
    [None] to the accumulator ([xx] and [boundss] kept as one list). *)
Definition collect {A B} (body : nat -> A -> M (option B))
  : nat -> list A -> list B -> M (list B) :=
  fix go (i : nat) (l : list A) (acc : list B) {struct l} : M (list B) :=
    match l with
    | [] => ret acc
    | a :: l' =>
        r <- body i a ;;
        go (S i) l' (match r with Some b => (acc ++ [b])%list | None => acc end)
    end.

(** [start_robustness_tree.children[i]] when a tree is given, [None]
    otherwise. *)
Definition child_tree (start_robustness_tree : option RobustnessTree)
    (i : nat) : M (option RobustnessTree) :=
  match start_robustness_tree with
  | Some tr => getitem (children tr) i
  | None => ret None
  end.

(** [start_robustness_tree.robustness], or [GRB.UNDEFINED] without a tree. *)
Definition start_of (start_robustness_tree : option RobustnessTree)
  : option Z :=
  match start_robustness_tree with
  | Some tr => Some (robustness tr)
  | None => None
  end.

(** [start_robustness_tree.index], or [None] without a tree. *)
Definition index_of (start_robustness_tree : option RobustnessTree)
  : option Z :=
  match start_robustness_tree with
  | Some tr => index tr
  | None => None
  end.

Definition _stl_expr (label : string) (s : Signal) (t : Z)
    (start_robustness_tree : option RobustnessTree) : M Enc :=
  match signal s t with
  | Some expr =>
      let bounds := bounds s in
      let r := start_of start_robustness_tree in
      call (OAddVar label (fst bounds) (snd bounds)) ;;;
      call (OSetStart label r) ;;;
      call (OConstrEq label expr) ;;;
      ret (Some (label, bounds))
  | None => ret None
  end.

(** [g] is [f.args[0]]. *)
Definition _stl_not (add_stl_constr : Encoder) (label : string) (g : Formula)
    (t : Z) (start_robustness_tree : option RobustnessTree) : M Enc :=
  tree <- child_tree start_robustness_tree 0 ;;
  match g with
  | Not h =>
      tree <- match tree with
              | Some tr => getitem (children tr) 0
              | None => ret None
              end ;;
      add_stl_constr label h t tree
  | _ =>
      res <- add_stl_constr (label ++ "_not") g t tree ;;
      match res with
      | Some (x, bounds) =>
          let r := start_of start_robustness_tree in
          call (OAddVar label (fst bounds) (snd bounds)) ;;;
          call (OSetStart label r) ;;;
          call (OConstrNeg label x) ;;;
          ret (Some (label, bounds))
      | None => ret None
      end
  end.

(** The common tail of [_stl_and_or] and [_stl_always_eventually]: from the
    collected [(x, bounds)] pairs to the min/max call. *)
Definition combine (k : MinMax) (label : string)
    (start_robustness_tree : option RobustnessTree)
    (coll : list (VarH * Bounds)) : M Enc :=
  match coll with
  | xb :: coll' =>
      let xx := map fst coll in
      let bounds := zip_max (snd xb) (map snd coll') in
      let K := max_abs bounds in
      let r := start_of start_robustness_tree in
      let index := index_of start_robustness_tree in
      y <- add_minmax k label xx K false r index ;;
      ret (Some (y, bounds))
  | [] => ret None
  end.

Definition _stl_and_or (add_stl_constr : Encoder) (label : string)
    (args : list Formula) (t : Z) (op : string)
    (start_robustness_tree : option RobustnessTree) : M Enc :=
  coll <- collect (fun i ff =>
            tree <- child_tree start_robustness_tree i ;;
            add_stl_constr (label ++ "_" ++ op ++ str (Z.of_nat i)) ff t tree)
          0%nat args [] ;;
  combine (if String.eqb op "and" then Min else Max)
          label start_robustness_tree coll.

Definition _stl_next (add_stl_constr : Encoder) (label : string) (g : Formula)
    (t : Z) (start_robustness_tree : option RobustnessTree) : M Enc :=
  add_stl_constr label g (t + 1) start_robustness_tree.

Definition _stl_always_eventually (add_stl_constr : Encoder) (label : string)
    (window : Z * Z) (g : Formula) (t : Z) (op : string)
    (start_robustness_tree : option RobustnessTree) : M Enc :=
  let '(b1, b2) := window in
  coll <- collect (fun _ i =>
            tree <- child_tree start_robustness_tree (Z.to_nat (i - b1)) ;;
            add_stl_constr (label ++ "_" ++ op ++ str i) g (t + i) tree)
          0%nat (range_incl b1 b2) [] ;;
  combine (if String.eqb op "alw" then Min else Max)
          label start_robustness_tree coll.

Fixpoint add_stl_constr (label : string) (f : Formula) (t : Z)
    (start_robustness_tree : option RobustnessTree) {struct f} : M Enc :=
  match f with
  | Expr s => _stl_expr label s t start_robustness_tree
  | Not g => _stl_not add_stl_constr label g t start_robustness_tree
  | And args =>
      _stl_and_or add_stl_constr label args t "and" start_robustness_tree
  | Or args =>
      _stl_and_or add_stl_constr label args t "or" start_robustness_tree
  | Always w g =>
      _stl_always_eventually add_stl_constr label w g t "alw"
                             start_robustness_tree
  | Next g => _stl_next add_stl_constr label g t start_robustness_tree
  | Eventually w g =>
      _stl_always_eventually add_stl_constr label w g t "eve"
                             start_robustness_tree
  end.

(** ** The orchestrator *)

(** Modelled from the spec: [Formula.horizon] of the stl module is not part of
    the sources; "the maximum time offset reachable by walking the tree
    accumulating Next shifts and Always/Eventually upper bounds". *)
Fixpoint horizon (f : Formula) : Z :=
  match f with
  | Expr _ => 0
  | Not g => horizon g
  | And args | Or args =>
      (fix go (l : list Formula) : Z :=
         match l with
         | [] => 0
         | ff :: l' => Z.max (horizon ff) (go l')
         end) args
  | Always w g | Eventually w g => snd w + horizon g
  | Next g => 1 + horizon g
  end.

(** [if v is not None: m.params.p = v]. *)
Definition set_param (p : string) (v : option Z) : M unit :=
  match v with
  | Some x => call (OSetParam p x)
  | None => ret tt
  end.

(** [fvar.setAttr("obj", spec_obj)]; [fvar] is [None] when the encoder
    returned [(None, None)], and [None] has no attribute [setAttr]. *)
Definition set_obj (res : Enc) (spec_obj : Z) : M unit :=
  match res with
  | Some (fvar, _) => call (OSetObj fvar spec_obj)
  | None => raise AttributeError
  end.

(** The body of [build_and_solve] after [m = create_milp("rhc_system")].
    [model_encode_f] is the caller's callback; logging, the dump of the
    solved variables to out_vars.txt and the status warning do not touch the
    model and are left out.  The returned [m] is the final model. *)
Definition build_and_solve_body (spec : option Formula)
    (model_encode_f : Z -> M unit) (spec_obj : Z)
    (start_robustness_tree : option RobustnessTree)
    (outputflag numericfocus threads : option Z) (log_files : bool)
  : M unit :=
  let hd := match spec with
            | Some f => Z.max 0 (horizon f) + 1
            | None => 0
            end in
  model_encode_f hd ;;;
  match spec with
  | Some f =>
      res <- add_stl_constr "spec" f 0 start_robustness_tree ;;
      set_obj res spec_obj
  | None => ret tt
  end ;;;
  set_param "outputflag" outputflag ;;;
  set_param "numericfocus" numericfocus ;;;
  set_param "threads" threads ;;;
  call OUpdate ;;;
  (if log_files then call (OWrite "out.lp") else ret tt) ;;;
  call OOptimize.

Definition build_and_solve (spec : option Formula)
    (model_encode_f : Z -> M unit) (spec_obj : Z)
    (start_robustness_tree : option RobustnessTree)
    (outputflag numericfocus threads : option Z) (log_files : bool)
  : Model * Res unit :=
  build_and_solve_body spec model_encode_f spec_obj start_robustness_tree
    outputflag numericfocus threads log_files (create_milp "rhc_system").

(** ** The direct encoding of Always over a list of variables *)

(** An index of a Python slice, for a list of length [n]: a negative index
    counts from the end, and the result is clipped to [0..n]. *)
Definition slice_index (n i : Z) : Z :=
  if i <? 0 then Z.max (i + n) 0 else Z.min i n.

(** [l[i:j]]. *)
Definition py_slice {A} (l : list A) (i j : Z) : list A :=
  let n := Z.of_nat (List.length l) in
  let lo := slice_index n i in
  let hi := slice_index n j in
  firstn (Z.to_nat (hi - lo)) (skipn (Z.to_nat lo) l).

(** [add_always_constr(m, label, a, b, rho, K, t)].  The call of
    [add_min_constr] leaves [nnegative], [start] and [start_index] to their
    defaults, which are declared in milp_util, outside the sources: they are
    parameters here. *)
Definition add_always_constr (nnegative : bool) (start start_index : option Z)
    (label : string) (a b : Z) (rho : list VarH) (K t : Z) : M VarH :=
  add_minmax Min label (py_slice rho (t + a) (t + b + 1)) K
             nnegative start start_index.

(** ** Vocabulary of the properties *)

(** [extend m ops]: the model [m] after the further calls [ops]. *)
Definition extend (m : Model) (ops : list Op) : Model :=
  mkModel (model_name m) (calls m ++ ops)%list.

(** The results that are not [None], in order. *)
Fixpoint somes {A} (l : list (option A)) : list A :=
  match l with
  | [] => []
  | Some a :: l' => a :: somes l'
  | None :: l' => somes l'
  end.

(** [x] is the greatest element of [l]. *)
Definition is_max (x : Z) (l : list Z) : Prop :=
  In x l /\ Forall (fun y => y <= x) l.

(** [subtree_at tree i sub]: the warm-start tree handed to child [i] is
    [sub]: [tree.children[i]] when a tree is present, [None] otherwise. *)
Definition subtree_at (tree : option RobustnessTree) (i : nat)
    (sub : option RobustnessTree) : Prop :=
  match tree with
  | Some tr => nth_error (children tr) i = Some sub
  | None => sub = None
  end.

(** [child_runs run i l m m' rs]: the elements of [l], at positions [i],
    [i+1], ..., were run one after the other, from model [m] to model [m'],
    none raised, and their results are [rs]. *)
Inductive child_runs {A : Type}
    (run : nat -> A -> Model -> Model -> Enc -> Prop)
  : nat -> list A -> Model -> Model -> list Enc -> Prop :=
| runs_nil : forall i m, child_runs run i [] m m []
| runs_cons : forall i a l m m1 m2 r rs,
    run i a m m1 r ->
    child_runs run (S i) l m1 m2 rs ->
    child_runs run i (a :: l) m m2 (r :: rs).

(** Argument [i] of an And/Or node labelled [label] is encoded at the same
    time [t], under the label [label_opi], with the tree's child [i]. *)
Definition arg_run (label op : string) (t : Z)
    (tree : option RobustnessTree) (i : nat) (ff : Formula)
    (m m1 : Model) (r : Enc) : Prop :=
  exists sub, subtree_at tree i sub /\
    add_stl_constr (label ++ "_" ++ op ++ str (Z.of_nat i)) ff t sub m
    = (m1, Ok r).

(** Offset [i] of an Always/Eventually node with window starting at [a]:
    the child [g] is encoded at time [t + i], under the label [label_opi],
    with the tree's child [i - a]. *)
Definition offset_run (label op : string) (g : Formula) (t a : Z)
    (tree : option RobustnessTree) (_ : nat) (i : Z)
    (m m1 : Model) (r : Enc) : Prop :=
  exists sub, subtree_at tree (Z.to_nat (i - a)) sub /\
    add_stl_constr (label ++ "_" ++ op ++ str i) g (t + i) sub m
    = (m1, Ok r).

(** [combined k label tree coll m1 m' r]: what follows the loop.  With
    nothing collected the node is [None] and the model is left as it is;
    otherwise one min/max call on the collected variables, with the
    element-wise maximum of the collected bounds and its largest absolute
    value as [K]. *)
Definition combined (k : MinMax) (label : string)
    (tree : option RobustnessTree) (coll : list (VarH * Bounds))
    (m1 m' : Model) (r : Enc) : Prop :=
  match coll with
  | [] => r = None /\ m' = m1
  | _ :: _ =>
      exists lo hi,
        is_max lo (map fst (map snd coll)) /\
        is_max hi (map snd (map snd coll)) /\
        r = Some (label, (lo, hi)) /\
        m' = record m1 (OMinMax k label (map fst coll)
                                (Z.max (Z.abs lo) (Z.abs hi)) false
                                (start_of tree) (index_of tree))
  end.

(** The combination of bounds in the words of the specification:
    "element-wise max of absolute values" of the children's bounds. *)
Definition abs_combination (lo hi : Z) (bs : list Bounds) : Prop :=
  is_max lo (map Z.abs (map fst bs)) /\ is_max hi (map Z.abs (map snd bs)).

(** Warm-start hints removed from a call. *)
Definition erase_start (o : Op) : Op :=
  match o with
  | OSetStart y _ => OSetStart y None
  | OMinMax k label xx K nn _ _ => OMinMax k label xx K nn None None
  | _ => o
  end.

(** A call that carries no warm-start hint. *)
Definition start_unset (o : Op) : Prop := erase_start o = o.

(** Two models that differ in warm-start hints only. *)
Definition same_structure (ma mb : Model) : Prop :=
  model_name ma = model_name mb /\
  map erase_start (calls ma) = map erase_start (calls mb).

(** [shape_matches f tr]: the tree mirrors the formula: one child per
    argument of And/Or, one child per offset of the window of
    Always/Eventually, one child for Not; Next shares its node with its
    child.  A child may be [None] (no hint for that sub-formula). *)
Fixpoint shape_matches (f : Formula) (tr : RobustnessTree) {struct f} : Prop :=
  match f with
  | Expr _ => True
  | Not g =>
      match children tr with
      | [c] => match c with
               | Some tr' => shape_matches g tr'
               | None => True
               end
      | _ => False
      end
  | And args | Or args =>
      (fix go (l : list Formula) (cs : list (option RobustnessTree)) : Prop :=
         match l, cs with
         | [], [] => True
         | ff :: l', c :: cs' =>
             match c with
             | Some tr' => shape_matches ff tr'
             | None => True
             end /\ go l' cs'
         | _, _ => False
         end) args (children tr)
  | Always w g | Eventually w g =>
      List.length (children tr) = Z.to_nat (snd w + 1 - fst w) /\
      Forall (fun c => match c with
                       | Some tr' => shape_matches g tr'
                       | None => True
                       end) (children tr)
  | Next g => shape_matches g tr
  end.

(** The descent of [_stl_not] into the tree, one level. *)
Definition descend (tree : option RobustnessTree)
  : Res (option RobustnessTree) :=
  match tree with
  | Some tr => match nth_error (children tr) 0 with
               | Some c => Ok c
               | None => Raise IndexError
               end
  | None => Ok None
  end.

(** Two levels: the tree that accompanies [phi] when the tree given
    accompanies [Not (Not phi)]. *)
Definition descend2 (tree : option RobustnessTree)
  : Res (option RobustnessTree) :=
  match descend tree with
  | Ok c => descend c
  | Raise e => Raise e
  end.

(** ** Meaning of the constraints *)

(** A valuation of the variables of the model. *)
Definition Valuation : Type := VarH -> Z.

(** The linear constraints added by the encoder itself. *)
Definition constraint_holds (v : Valuation) (o : Op) : Prop :=
  match o with
  | OConstrEq y e => v y = v e
  | OConstrNeg y x => v y = - v x
  | _ => True
  end.

(** The declared range of a variable. *)
Definition range_holds (v : Valuation) (o : Op) : Prop :=
  match o with
  | OAddVar y lb ub => lb <= v y <= ub
  | _ => True
  end.

(** [v] lies in the pair [b]. *)
Definition within (x : Z) (b : Bounds) : Prop := fst b <= x <= snd b.

(** The min/max direction of the nodes that combine several encodings. *)
Definition node_kind (f : Formula) : option MinMax :=
  match f with
  | And _ | Always _ _ => Some Min
  | Or _ | Eventually _ _ => Some Max
  | _ => None
  end.

(** [node_children_runs label f t tree m m1 rs]: the arguments of an And/Or
    node, or the offsets of the window of an Always/Eventually node, were
    encoded in order from [m] to [m1] with results [rs]. *)
Definition node_children_runs (label : string) (f : Formula) (t : Z)
    (tree : option RobustnessTree) (m m1 : Model) (rs : list Enc) : Prop :=
  match f with
  | And args => child_runs (arg_run label "and" t tree) 0 args m m1 rs
  | Or args => child_runs (arg_run label "or" t tree) 0 args m m1 rs
  | Always w g =>
      child_runs (offset_run label "alw" g t (fst w) tree) 0
                 (range_incl (fst w) (snd w)) m m1 rs
  | Eventually w g =>
      child_runs (offset_run label "eve" g t (fst w) tree) 0
                 (range_incl (fst w) (snd w)) m m1 rs
  | _ => False
  end.

(** The claim on the combined bounds as the specification words it. *)
Definition bounds_are_abs_max : Prop :=
  forall label f t tree m m1 m' rs y bds k,
    node_kind f = Some k ->
    node_children_runs label f t tree m m1 rs ->
    add_stl_constr label f t tree m = (m', Ok (Some (y, bds))) ->
    abs_combination (fst bds) (snd bds) (map snd (somes rs)).

(** The number of children a tree node must have for [f]: one per argument,
    one per offset of the window, one for Not; none is looked up for a leaf,
    and Next hands its own node down. *)
Definition children_needed (f : Formula) : nat :=
  match f with
  | Expr _ | Next _ => 0
  | Not _ => 1
  | And args | Or args => List.length args
  | Always w _ | Eventually w _ => Z.to_nat (snd w + 1 - fst w)
  end.

(** The claim on malformed trees as the specification words it: a node with
    the wrong number of children makes the encoding raise. *)
Definition wrong_arity_always_fails : Prop :=
  forall label f t tr m,
    node_kind f <> None ->
    List.length (children tr) <> children_needed f ->
    exists m' e, add_stl_constr label f t (Some tr) m = (m', Raise e).

(** A tree, when there is one, mirrors the formula. *)
Definition opt_shape (f : Formula) (tree : option RobustnessTree) : Prop :=
  match tree with
  | Some tr => shape_matches f tr
  | None => True
  end.

(** [hints_only m ma mb]: from the model [m], [ma] and [mb] were reached by
    the same calls, except that those of [mb] carry no warm-start hint. *)
Definition hints_only (m ma mb : Model) : Prop :=
  exists ops, ma = extend m ops /\ mb = extend m (map erase_start ops).

(** The calls of [build_and_solve] that follow the objective. *)
Definition param_call (p : string) (v : option Z) : list Op :=
  match v with
  | Some x => [OSetParam p x]
  | None => []
  end.

Definition solver_calls (outputflag numericfocus threads : option Z)
    (log_files : bool) : list Op :=
  (param_call "outputflag" outputflag ++
   param_call "numericfocus" numericfocus ++
   param_call "threads" threads ++
   [OUpdate] ++
   (if log_files then [OWrite "out.lp"] else []) ++
   [OOptimize])%list.

(** ** Sample inputs *)

(** A signal [x] with range [[-5, 1]], defined at every time. *)
Definition sig_x : Signal := mkSignal (fun t => Some ("x" ++ str t)) (-5, 1).

(** A signal [y] with range [[-2, 3]], defined at every time. *)
Definition sig_y : Signal := mkSignal (fun t => Some ("y" ++ str t)) (-2, 3).

(** A signal [z] with range [[0, 10]], defined at times 0, 1 and 2 only. *)
Definition sig_z : Signal :=
  mkSignal (fun t => if (0 <=? t) && (t <? 3) then Some ("z" ++ str t)
                     else None) (0, 10).

Definition model0 : Model := create_milp "rhc_system".

Definition and_xy : Formula := And [Expr sig_x; Expr sig_y].

(** [z] three steps ahead, where it is not defined. *)
Definition next3_z : Formula := Next (Next (Next (Expr sig_z))).

Definition alw_not_x : Formula := Always (1, 3) (Not (Expr sig_x)).

(** A tree that mirrors [alw_not_x], with no hint for the second offset. *)
Definition tree_alw_not_x : RobustnessTree :=
  RTree 7 (Some 1)
    [Some (RTree 1 None [Some (RTree (-1) None [])]);
     None;
     Some (RTree 3 None [None])].

(** Two leaves whose ranges have [|lo| <= hi]. *)
Definition and_uv : Formula :=
  And [Expr (mkSignal (fun _ => Some "u") (-5, 5));
       Expr (mkSignal (fun _ => Some "v") (-2, 3))].

(** A callback that adds no system constraint. *)
Definition no_system (hd : Z) : M unit := ret tt.

(** ** Vocabulary of further properties *)

(** [defined f t]: some leaf of [f], at the time at which the encoder reaches
    it from base time [t], has a signal. *)
Fixpoint defined (f : Formula) (t : Z) {struct f} : bool :=
  match f with
  | Expr s => match signal s t with Some _ => true | None => false end
  | Not g => defined g t
  | And args | Or args => existsb (fun ff => defined ff t) args
  | Always w g | Eventually w g =>
      existsb (fun i => defined g (t + i)) (range_incl (fst w) (snd w))
  | Next g => defined g (t + 1)
  end.

(** The variable that a call of the encoder creates or constrains; the
    calls of the orchestrator have none. *)
Definition call_target (o : Op) : option VarH :=
  match o with
  | OAddVar y _ _ | OSetStart y _ | OConstrEq y _ | OConstrNeg y _
  | OMinMax _ y _ _ _ _ _ => Some y
  | _ => None
  end.

(** The variable that a call creates. *)
Definition creates (o : Op) : option VarH :=
  match o with
  | OAddVar y _ _ | OMinMax _ y _ _ _ _ _ => Some y
  | _ => None
  end.

(** The names of the variables created by a sequence of calls, in order. *)
Definition created (ops : list Op) : list VarH := somes (map creates ops).

(** What the encoder appends to a label: nothing, or pieces that each start
    with an underscore. *)
Definition path_suffix (s : string) : Prop :=
  s = "" \/ exists s', s = String "_"%char s'.

(** [under label y]: the name [y] is [label] followed by such a suffix. *)
Definition under (label : string) (y : VarH) : Prop :=
  exists s, y = label ++ s /\ path_suffix s.

(** Every call creates or constrains a variable whose name satisfies [P],
    and no name is created twice. *)
Definition well_named (P : VarH -> Prop) (ops : list Op) : Prop :=
  Forall (fun o => exists y, call_target o = Some y /\ P y) ops /\
  NoDup (created ops).

(** [emits P c]: whatever its outcome, [c] only extends the model, by calls
    that satisfy [P]. *)
Definition emits {A} (P : list Op -> Prop) (c : M A) : Prop :=
  forall m m' r, c m = (m', r) -> exists ops, m' = extend m ops /\ P ops.

(** Strings without an underscore. *)
Fixpoint no_underscore (s : string) : Prop :=
  match s with
  | EmptyString => True
  | String c s' => c <> "_"%char /\ no_underscore s'
  end.

(** No name lies under both labels. *)
Definition separated (l1 l2 : string) : Prop :=
  forall y, under l1 y -> under l2 y -> False.

(** [leaves_dominant f]: the declared range [[lo, hi]] of every leaf of [f]
    has [|lo| <= hi]; a symmetric range [[-b, b]] is the typical case. *)
Fixpoint leaves_dominant (f : Formula) : Prop :=
  match f with
  | Expr s => Z.abs (fst (bounds s)) <= snd (bounds s)
  | Not g | Next g | Always _ g | Eventually _ g => leaves_dominant g
  | And args | Or args =>
      (fix go (l : list Formula) : Prop :=
         match l with
         | [] => True
         | ff :: l' => leaves_dominant ff /\ go l'
         end) args
  end.

(** [has_bounds t a ob]: some run of the encoder on [a] at time [t] that does
    not raise returns the bounds [ob] ([None] for a None result). *)
Definition has_bounds (t : Z) (a : Formula) (ob : option Bounds) : Prop :=
  exists label tree m m' r,
    add_stl_constr label a t tree m = (m', Ok r) /\ option_map snd r = ob.

(** ** Basic facts *)

Section FormulaInduction.
Variable P : Formula -> Prop.
Hypothesis HExpr : forall s, P (Expr s).
Hypothesis HNot : forall g, P g -> P (Not g).
Hypothesis HAnd : forall args, Forall P args -> P (And args).
Hypothesis HOr : forall args, Forall P args -> P (Or args).
Hypothesis HAlways : forall w g, P g -> P (Always w g).
Hypothesis HNext : forall g, P g -> P (Next g).
Hypothesis HEventually : forall w g, P g -> P (Eventually w g).

Fixpoint Formula_nested_ind (f : Formula) : P f :=
  let all := fix all (l : list Formula) : Forall P l :=
    match l with
    | [] => Forall_nil P
    | ff :: l' => Forall_cons ff (Formula_nested_ind ff) (all l')
    end in
  match f with
  | Expr s => HExpr s
  | Not g => HNot g (Formula_nested_ind g)
  | And args => HAnd args (all args)
  | Or args => HOr args (all args)
  | Always w g => HAlways w g (Formula_nested_ind g)
  | Next g => HNext g (Formula_nested_ind g)
  | Eventually w g => HEventually w g (Formula_nested_ind g)
  end.
End FormulaInduction.

Lemma bind_ok {A B} (c : M A) (k : A -> M B) m m1 a :
  c m = (m1, Ok a) -> bind c k m = k a m1.
Proof. unfold bind; intros ->; reflexivity. Qed.

Lemma bind_raise {A B} (c : M A) (k : A -> M B) m m1 e :
  c m = (m1, Raise e) -> bind c k m = (m1, Raise e).
Proof. unfold bind; intros ->; reflexivity. Qed.

Lemma bind_ok_inv {A B} (c : M A) (k : A -> M B) m m' b :
  bind c k m = (m', Ok b) ->
  exists m1 a, c m = (m1, Ok a) /\ k a m1 = (m', Ok b).
Proof.
  unfold bind; destruct (c m) as [m1 [a|e]]; intros H.
  - exists m1, a; split; [reflexivity | exact H].
  - discriminate H.
Qed.

Lemma child_tree_ok tree i m m1 sub :
  child_tree tree i m = (m1, Ok sub) <-> (m1 = m /\ subtree_at tree i sub).
Proof.
  unfold child_tree, subtree_at, getitem, ret, raise.
  destruct tree as [tr|].
  - destruct (nth_error (children tr) i) as [c|]; split.
    + intros H; inversion H; subst; auto.
    + intros [-> H]; inversion H; subst; reflexivity.
    + intros H; discriminate H.
    + intros [_ H]; discriminate H.
  - split.
    + intros H; inversion H; subst; auto.
    + intros [-> ->]; reflexivity.
Qed.

Lemma child_tree_model tree i m m1 r :
  child_tree tree i m = (m1, r) -> m1 = m.
Proof.
  unfold child_tree, getitem, ret, raise.
  destruct tree as [tr|]; [destruct (nth_error (children tr) i)|];
    intros H; inversion H; reflexivity.
Qed.

(** The loop, from its outcome to the runs of its body and back. *)
Lemma collect_ok_inv {A} (body : nat -> A -> M Enc) l :
  forall i acc m m' coll,
    collect body i l acc m = (m', Ok coll) ->
    exists rs,
      child_runs (fun i a m m1 r => body i a m = (m1, Ok r)) i l m m' rs /\
      coll = (acc ++ somes rs)%list.
Proof.
  induction l as [|a l IH]; intros i acc m m' coll H; simpl in H.
  - inversion H; subst. exists []; split; [constructor | now rewrite app_nil_r].
  - apply bind_ok_inv in H as (m1 & r & Hb & Hk).
    apply IH in Hk as (rs & Hrs & ->).
    exists (r :: rs); split; [econstructor; eauto|].
    destruct r as [b|]; simpl; [now rewrite <- app_assoc | reflexivity].
Qed.

Lemma collect_ok_intro {A} (body : nat -> A -> M Enc) l :
  forall i acc m m' rs,
    child_runs (fun i a m m1 r => body i a m = (m1, Ok r)) i l m m' rs ->
    collect body i l acc m = (m', Ok (acc ++ somes rs)%list).
Proof.
  induction l as [|a l IH]; intros i acc m m' rs H; inversion H; subst; simpl.
  - now rewrite app_nil_r.
  - erewrite bind_ok by eassumption.
    erewrite IH by eassumption.
    destruct r as [b|]; simpl; [now rewrite <- app_assoc | reflexivity].
Qed.

Lemma child_runs_impl {A} (R1 R2 : nat -> A -> Model -> Model -> Enc -> Prop)
    i l m m' rs :
  (forall i a m m1 r, R1 i a m m1 r -> R2 i a m m1 r) ->
  child_runs R1 i l m m' rs -> child_runs R2 i l m m' rs.
Proof.
  intros HR H; induction H; econstructor; eauto.
Qed.

Lemma child_runs_length {A} (R : nat -> A -> Model -> Model -> Enc -> Prop)
    i l m m' rs :
  child_runs R i l m m' rs -> List.length rs = List.length l.
Proof. intros H; induction H; simpl; congruence. Qed.

Lemma py_max_ge x xs : x <= py_max x xs.
Proof.
  unfold py_max; revert x; induction xs as [|y ys IH]; intros x; simpl.
  - lia.
  - specialize (IH (Z.max x y)); lia.
Qed.

Lemma py_max_is_max x xs : is_max (py_max x xs) (x :: xs).
Proof.
  unfold is_max, py_max; revert x; induction xs as [|y ys IH]; intros x.
  - simpl; split; [now left | repeat constructor; lia].
  - simpl fold_left.
    destruct (IH (Z.max x y)) as [Hin Hall].
    inversion Hall as [|? ? Hhd Htl]; subst.
    split.
    + destruct Hin as [Hin | Hin].
      * rewrite <- Hin.
        destruct (Z.max_spec x y) as [[_ E] | [_ E]]; rewrite E.
        -- right; left; reflexivity.
        -- left; reflexivity.
      * right; right; exact Hin.
    + constructor; [lia|]. constructor; [lia | exact Htl].
Qed.

Lemma is_max_unique x y l : is_max x l -> is_max y l -> x = y.
Proof.
  intros [Hx Ax] [Hy Ay].
  rewrite Forall_forall in Ax, Ay.
  specialize (Ax y Hy); specialize (Ay x Hx); lia.
Qed.

Lemma combine_combined k label tree coll m1 m' r :
  combine k label tree coll m1 = (m', Ok r) <->
  combined k label tree coll m1 m' r.
Proof.
  unfold combine, combined, add_minmax, call, ret, bind.
  destruct coll as [|[x b] coll']; simpl.
  - split.
    + intros H; inversion H; auto.
    + intros [-> ->]; reflexivity.
  - pose proof (py_max_is_max (fst b) (map fst (map snd coll'))) as Hlo.
    pose proof (py_max_is_max (snd b) (map snd (map snd coll'))) as Hhi.
    split.
    + intros H; inversion H; subst.
      eexists _, _; repeat split; try apply Hlo; try apply Hhi.
    + intros (lo & hi & Hlo' & Hhi' & -> & ->).
      rewrite (is_max_unique _ _ _ Hlo' Hlo), (is_max_unique _ _ _ Hhi' Hhi).
      reflexivity.
Qed.

Lemma arg_body_run label op t tree i ff m m1 r :
  (tree' <- child_tree tree i ;;
   add_stl_constr (label ++ "_" ++ op ++ str (Z.of_nat i)) ff t tree') m
  = (m1, Ok r) <->
  arg_run label op t tree i ff m m1 r.
Proof.
  unfold arg_run; split.
  - intros H; apply bind_ok_inv in H as (m0 & sub & Hc & Hr).
    apply child_tree_ok in Hc as [-> Hs]. eauto.
  - intros (sub & Hs & Hr).
    erewrite bind_ok; [eassumption|]. apply child_tree_ok; auto.
Qed.

Lemma offset_body_run label op g t a tree (n : nat) i m m1 r :
  (tree' <- child_tree tree (Z.to_nat (i - a)) ;;
   add_stl_constr (label ++ "_" ++ op ++ str i) g (t + i) tree') m
  = (m1, Ok r) <->
  offset_run label op g t a tree n i m m1 r.
Proof.
  unfold offset_run; split.
  - intros H; apply bind_ok_inv in H as (m0 & sub & Hc & Hr).
    apply child_tree_ok in Hc as [-> Hs]. eauto.
  - intros (sub & Hs & Hr).
    erewrite bind_ok; [eassumption|]. apply child_tree_ok; auto.
Qed.

(** What a combining node does, in both directions: its children are run
    in order, then the collected results are combined. *)
Lemma node_run label f t tree k m m' r :
  node_kind f = Some k ->
  (add_stl_constr label f t tree m = (m', Ok r) <->
   exists m1 rs,
     node_children_runs label f t tree m m1 rs /\
     combined k label tree (somes rs) m1 m' r).
Proof.
  intros Hk.
  destruct f as [s|g|args|args|[a b] g|g|[a b] g]; simpl in Hk;
    try discriminate Hk; inversion Hk; subst k; clear Hk;
    simpl add_stl_constr; simpl node_children_runs;
    unfold _stl_and_or, _stl_always_eventually; simpl String.eqb; split.
  all: try (intros H; apply bind_ok_inv in H as (m1 & coll & Hc & Hr);
            apply collect_ok_inv in Hc as (rs & Hrs & ->); simpl in Hr;
            apply combine_combined in Hr;
            exists m1, rs; split; [|exact Hr];
            eapply child_runs_impl; [|exact Hrs];
            intros ? ? ? ? ? Hb;
            first [ apply arg_body_run in Hb; exact Hb
                  | apply offset_body_run; exact Hb ]).
  all: intros (m1 & rs & Hrs & Hr);
       apply combine_combined in Hr;
       erewrite bind_ok; [exact Hr|];
       apply (collect_ok_intro _ _ 0%nat []);
       eapply child_runs_impl; [|exact Hrs];
       intros ? ? ? ? ? Hb;
       first [ apply arg_body_run; exact Hb
             | apply offset_body_run in Hb; exact Hb ].
Qed.

(** Induction on formulas that follows the recursion of the encoder: below a
    Not the encoder recurses either into the child or, for a double
    negation, into the grandchild. *)
Lemma Formula_encoder_ind (P : Formula -> Prop) :
  (forall s, P (Expr s)) ->
  (forall g, P g -> (forall h, g = Not h -> P h) -> P (Not g)) ->
  (forall args, Forall P args -> P (And args)) ->
  (forall args, Forall P args -> P (Or args)) ->
  (forall w g, P g -> P (Always w g)) ->
  (forall g, P g -> P (Next g)) ->
  (forall w g, P g -> P (Eventually w g)) ->
  forall f, P f.
Proof.
  intros HE HN HA HO HAl HNx HEv f.
  enough (H : P f /\ (forall h, f = Not h -> P h)) by (destruct H; assumption).
  induction f as [s|g [IH1 IH2]|args IH|args IH|w g [IH1 _]|g [IH1 _]
                 |w g [IH1 _]] using Formula_nested_ind.
  - split; [apply HE | intros h E; discriminate E].
  - split; [apply HN; assumption | intros h E; inversion E; subst; exact IH1].
  - split; [|intros h E; discriminate E].
    apply HA. eapply Forall_impl; [|exact IH]. intros a [Ha _]; exact Ha.
  - split; [|intros h E; discriminate E].
    apply HO. eapply Forall_impl; [|exact IH]. intros a [Ha _]; exact Ha.
  - split; [apply HAl; assumption | intros h E; discriminate E].
  - split; [apply HNx; assumption | intros h E; discriminate E].
  - split; [apply HEv; assumption | intros h E; discriminate E].
Qed.

Lemma range_incl_length a b :
  List.length (range_incl a b) = Z.to_nat (b + 1 - a).
Proof. unfold range_incl; now rewrite length_map, length_seq. Qed.

Lemma range_incl_nth a b k :
  (k < Z.to_nat (b + 1 - a))%nat ->
  nth_error (range_incl a b) k = Some (a + Z.of_nat k).
Proof.
  intros Hk; unfold range_incl.
  rewrite nth_error_map, nth_error_seq.
  destruct (Nat.ltb_spec k (Z.to_nat (b + 1 - a))); [reflexivity | lia].
Qed.

Lemma range_incl_In a b i : In i (range_incl a b) <-> a <= i <= b.
Proof.
  unfold range_incl; rewrite in_map_iff; split.
  - intros (k & <- & Hk); apply in_seq in Hk; lia.
  - intros Hi; exists (Z.to_nat (i - a)); split; [lia|].
    apply in_seq; lia.
Qed.

(** Children that all return [None] leave the model as it was, provided
    each of them does. *)
Lemma child_runs_none {A} (R : nat -> A -> Model -> Model -> Enc -> Prop)
    i l m m' rs :
  child_runs R i l m m' rs ->
  (forall i a m m1, In a l -> R i a m m1 None -> m1 = m) ->
  somes rs = [] ->
  m' = m /\ Forall (fun r => r = None) rs.
Proof.
  intros H; induction H as [|i a l m m1 m2 r rs Hr Hrs IH]; intros HR Hs.
  - split; [reflexivity | constructor].
  - destruct r as [xb|]; [discriminate Hs|]. simpl in Hs.
    destruct IH as [-> Hall]; [intros; eapply HR; eauto; now right | exact Hs|].
    split; [eapply HR; eauto; now left | constructor; auto].
Qed.

(** A sub-formula whose encoding is [None] adds nothing to the model. *)
Lemma none_adds_nothing f :
  forall label t tree m m',
    add_stl_constr label f t tree m = (m', Ok None) -> m' = m.
Proof.
  induction f as [s|g IHg IHh|args IH|args IH|w g IHg|g IHg|w g IHg]
    using Formula_encoder_ind; intros label t tree m m' H.
  - simpl in H; unfold _stl_expr in H.
    destruct (signal s t); [|inversion H; reflexivity].
    unfold bind, call, ret in H; simpl in H; discriminate H.
  - simpl in H; unfold _stl_not in H.
    apply bind_ok_inv in H as (m0 & sub & Hc & H).
    apply child_tree_model in Hc; subst m0.
    assert (Hplain :
      (res <- add_stl_constr (label ++ "_not") g t sub ;;
       match res with
       | Some (x, bounds) =>
           call (OAddVar label (fst bounds) (snd bounds)) ;;;
           call (OSetStart label (start_of tree)) ;;;
           call (OConstrNeg label x) ;;; ret (Some (label, bounds))
       | None => ret None
       end) m = (m', Ok None) -> m' = m).
    { intros H'. apply bind_ok_inv in H' as (m1 & res & Hg & H').
      destruct res as [[x b]|].
      - unfold bind, call, ret in H'; simpl in H'; discriminate H'.
      - inversion H'; subst. eapply IHg; eauto. }
    destruct g; try (apply Hplain; exact H).
    apply bind_ok_inv in H as (m1 & sub' & Hc & H).
    assert (m1 = m) as ->.
    { destruct sub as [tr|]; [eapply (child_tree_model (Some tr)); eauto|].
      inversion Hc; reflexivity. }
    eapply IHh; eauto.
  - apply (node_run _ _ _ _ Min) in H as (m1 & rs & Hrs & Hc); [|reflexivity].
    simpl in Hrs. destruct (somes rs) eqn:Es.
    + destruct Hc as [_ ->].
      eapply child_runs_none in Hrs as [-> _]; auto.
      intros i a ma mb Hin (sub & _ & Hr).
      rewrite Forall_forall in IH. eapply IH; eauto.
    + destruct Hc as (lo & hi & _ & _ & Hc & _); discriminate Hc.
  - apply (node_run _ _ _ _ Max) in H as (m1 & rs & Hrs & Hc); [|reflexivity].
    simpl in Hrs. destruct (somes rs) eqn:Es.
    + destruct Hc as [_ ->].
      eapply child_runs_none in Hrs as [-> _]; auto.
      intros i a ma mb Hin (sub & _ & Hr).
      rewrite Forall_forall in IH. eapply IH; eauto.
    + destruct Hc as (lo & hi & _ & _ & Hc & _); discriminate Hc.
  - apply (node_run _ _ _ _ Min) in H as (m1 & rs & Hrs & Hc); [|reflexivity].
    simpl in Hrs. destruct (somes rs) eqn:Es.
    + destruct Hc as [_ ->].
      eapply child_runs_none in Hrs as [-> _]; auto.
      intros i a ma mb Hin (sub & _ & Hr). eapply IHg; eauto.
    + destruct Hc as (lo & hi & _ & _ & Hc & _); discriminate Hc.
  - simpl in H; unfold _stl_next in H. eapply IHg; eauto.
  - apply (node_run _ _ _ _ Max) in H as (m1 & rs & Hrs & Hc); [|reflexivity].
    simpl in Hrs. destruct (somes rs) eqn:Es.
    + destruct Hc as [_ ->].
      eapply child_runs_none in Hrs as [-> _]; auto.
      intros i a ma mb Hin (sub & _ & Hr). eapply IHg; eauto.
    + destruct Hc as (lo & hi & _ & _ & Hc & _); discriminate Hc.
Qed.

(** ** Exceptions *)

Lemma bind_raise_inv {A B} (c : M A) (k : A -> M B) m m' e :
  bind c k m = (m', Raise e) ->
  c m = (m', Raise e) \/
  exists m1 a, c m = (m1, Ok a) /\ k a m1 = (m', Raise e).
Proof.
  unfold bind; destruct (c m) as [m1 [a|e']]; intros H.
  - right; eauto.
  - left; inversion H; reflexivity.
Qed.

Lemma getitem_raise {A} (l : list A) i m m' e :
  getitem l i m = (m', Raise e) -> e = IndexError.
Proof.
  unfold getitem, ret, raise; destruct (nth_error l i); intros H;
    inversion H; reflexivity.
Qed.

Lemma child_tree_raise tree i m m' e :
  child_tree tree i m = (m', Raise e) -> e = IndexError.
Proof.
  destruct tree as [tr|]; simpl; [apply getitem_raise|].
  unfold ret; intros H; discriminate H.
Qed.

Lemma combine_no_raise k label tree coll m m' e :
  combine k label tree coll m <> (m', Raise e).
Proof.
  unfold combine, add_minmax, bind, call, ret.
  destruct coll; simpl; intros H; discriminate H.
Qed.

Lemma collect_raise_inv {A} (body : nat -> A -> M Enc) l :
  forall i acc m m' e,
    collect body i l acc m = (m', Raise e) ->
    exists k a ma, nth_error l k = Some a /\
                   body (i + k)%nat a ma = (m', Raise e).
Proof.
  induction l as [|a l IH]; intros i acc m m' e H; simpl in H.
  - discriminate H.
  - apply bind_raise_inv in H as [H | (m1 & r & _ & H)].
    + exists 0%nat, a, m; rewrite Nat.add_0_r; auto.
    + apply IH in H as (k & a' & ma & Hn & Hb).
      exists (S k), a', ma; split; [exact Hn|].
      now rewrite Nat.add_succ_r.
Qed.

(** The loop raises as soon as the body raises at some position, whatever
    happens before. *)
Lemma collect_raises {A} (body : nat -> A -> M Enc) l :
  forall i acc m k0,
    (k0 < List.length l)%nat ->
    (forall a ma, nth_error l k0 = Some a ->
                  exists mb e, body (i + k0)%nat a ma = (mb, Raise e)) ->
    exists m' e, collect body i l acc m = (m', Raise e).
Proof.
  induction l as [|a l IH]; intros i acc m k0 Hk Hb; simpl in Hk; [lia|].
  simpl collect.
  destruct (body i a m) as [m1 [r|e]] eqn:E.
  - destruct k0 as [|k0].
    + destruct (Hb a m eq_refl) as (mb & e & E').
      rewrite Nat.add_0_r in E'; congruence.
    + erewrite bind_ok by exact E.
      apply (IH (S i) _ m1 k0); [lia|].
      intros a' ma Hn. rewrite Nat.add_succ_l, <- Nat.add_succ_r.
      apply Hb; exact Hn.
  - erewrite bind_raise by exact E. eauto.
Qed.

(** The only exception of the encoder is the failed lookup of a child of
    the warm-start tree. *)
Lemma encoder_raises_index_error f :
  forall label t tree m m' e,
    add_stl_constr label f t tree m = (m', Raise e) -> e = IndexError.
Proof.
  assert (Hnode : forall (A : Type) (body : nat -> A -> M Enc) l k label tree
                         m m' e,
    (forall i a ma mb e, In a l -> body i a ma = (mb, Raise e) ->
                         e = IndexError) ->
    (coll <- collect body 0%nat l [] ;; combine k label tree coll) m
    = (m', Raise e) -> e = IndexError).
  { intros A body l k label tree m m' e Hb H.
    apply bind_raise_inv in H as [H | (m1 & coll & _ & H)].
    - apply collect_raise_inv in H as (i & a & ma & Hn & H).
      eapply Hb; eauto. eapply nth_error_In; eauto.
    - now apply combine_no_raise in H. }
  assert (Hbody : forall (g : Formula) (c : nat -> M (option RobustnessTree))
                         (lbl : nat -> string) (tm : nat -> Z) i ma mb e,
    (forall i m m' e, c i m = (m', Raise e) -> e = IndexError) ->
    (forall label t tree m m' e,
        add_stl_constr label g t tree m = (m', Raise e) -> e = IndexError) ->
    (tr <- c i ;; add_stl_constr (lbl i) g (tm i) tr) ma = (mb, Raise e) ->
    e = IndexError).
  { intros g c lbl tm i ma mb e Hc Hg H.
    apply bind_raise_inv in H as [H | (m1 & tr & _ & H)]; eauto. }
  induction f as [s|g IHg IHh|args IH|args IH|w g IHg|g IHg|w g IHg]
    using Formula_encoder_ind; intros label t tree m m' e H.
  - simpl in H; unfold _stl_expr, bind, call, ret in H.
    destruct (signal s t); simpl in H; discriminate H.
  - simpl in H; unfold _stl_not in H.
    apply bind_raise_inv in H as [H | (m0 & sub & _ & H)];
      [eapply child_tree_raise; eauto|].
    assert (Hplain :
      (res <- add_stl_constr (label ++ "_not") g t sub ;;
       match res with
       | Some (x, bounds) =>
           call (OAddVar label (fst bounds) (snd bounds)) ;;;
           call (OSetStart label (start_of tree)) ;;;
           call (OConstrNeg label x) ;;; ret (Some (label, bounds))
       | None => ret None
       end) m0 = (m', Raise e) -> e = IndexError).
    { intros H'. apply bind_raise_inv in H' as [H' | (m1 & res & _ & H')];
        [eapply IHg; eauto|].
      destruct res as [[x b]|]; unfold bind, call, ret in H'; simpl in H';
        discriminate H'. }
    destruct g; try (apply Hplain; exact H).
    apply bind_raise_inv in H as [H | (m1 & sub' & _ & H)].
    + destruct sub as [tr|]; [eapply getitem_raise; eauto | discriminate H].
    + eapply IHh; eauto.
  - simpl in H; unfold _stl_and_or in H. eapply Hnode; [|exact H].
    intros i a ma mb e' Hin Hb. rewrite Forall_forall in IH.
    eapply (Hbody a (child_tree tree)
              (fun i => label ++ "_" ++ "and" ++ str (Z.of_nat i))
              (fun _ => t)); [apply child_tree_raise | apply IH, Hin | exact Hb].
  - simpl in H; unfold _stl_and_or in H. eapply Hnode; [|exact H].
    intros i a ma mb e' Hin Hb. rewrite Forall_forall in IH.
    eapply (Hbody a (child_tree tree)
              (fun i => label ++ "_" ++ "or" ++ str (Z.of_nat i))
              (fun _ => t)); [apply child_tree_raise | apply IH, Hin | exact Hb].
  - simpl in H; unfold _stl_always_eventually in H; destruct w as [b1 b2].
    eapply Hnode; [|exact H].
    intros i a ma mb e' Hin Hb.
    apply bind_raise_inv in Hb as [Hb | (m1 & tr & _ & Hb)];
      [eapply child_tree_raise; eauto | eapply IHg; eauto].
  - simpl in H; unfold _stl_next in H. eapply IHg; eauto.
  - simpl in H; unfold _stl_always_eventually in H; destruct w as [b1 b2].
    eapply Hnode; [|exact H].
    intros i a ma mb e' Hin Hb.
    apply bind_raise_inv in Hb as [Hb | (m1 & tr & _ & Hb)];
      [eapply child_tree_raise; eauto | eapply IHg; eauto].
Qed.

(** ** Negation *)

Lemma not_cases (g : Formula) : (exists h, g = Not h) \/ (forall h, g <> Not h).
Proof. destruct g; try (right; intros h E; discriminate E). left; eauto. Qed.

Lemma not_not_eq label h t tree :
  add_stl_constr label (Not (Not h)) t tree =
  (sub <- child_tree tree 0 ;;
   sub' <- child_tree sub 0 ;;
   add_stl_constr label h t sub').
Proof. reflexivity. Qed.

Lemma not_plain_eq label g t tree :
  (forall h, g <> Not h) ->
  add_stl_constr label (Not g) t tree =
  (sub <- child_tree tree 0 ;;
   res <- add_stl_constr (label ++ "_not") g t sub ;;
   match res with
   | Some (x, bounds) =>
       call (OAddVar label (fst bounds) (snd bounds)) ;;;
       call (OSetStart label (start_of tree)) ;;;
       call (OConstrNeg label x) ;;;
       ret (Some (label, bounds))
   | None => ret None
   end).
Proof.
  intros Hg; destruct g; try reflexivity. now destruct (Hg g).
Qed.

(** ** The bounds do not depend on labels, trees or models *)

Lemma child_runs_same_bounds {A}
    (R1 R2 : nat -> A -> Model -> Model -> Enc -> Prop) l :
  (forall a i1 i2 ma ma' mb mb' ra rb,
      In a l -> R1 i1 a ma ma' ra -> R2 i2 a mb mb' rb ->
      option_map snd ra = option_map snd rb) ->
  forall i1 i2 m1 m1' m2 m2' rs1 rs2,
    child_runs R1 i1 l m1 m1' rs1 ->
    child_runs R2 i2 l m2 m2' rs2 ->
    map snd (somes rs1) = map snd (somes rs2).
Proof.
  induction l as [|a l IH]; intros HR i1 i2 m1 m1' m2 m2' rs1 rs2 H1 H2;
    inversion H1; inversion H2; subst; [reflexivity|].
  assert (E : option_map snd r = option_map snd r0)
    by (eapply HR; eauto; now left).
  assert (E' : map snd (somes rs) = map snd (somes rs0))
    by (eapply IH; eauto; intros; eapply HR; eauto; now right).
  destruct r as [[x b]|], r0 as [[x0 b0]|]; simpl in *;
    try discriminate E; congruence.
Qed.

Lemma combined_same_bounds k1 k2 l1 l2 tr1 tr2 coll1 coll2 ma ma' mb mb' r1 r2 :
  combined k1 l1 tr1 coll1 ma ma' r1 ->
  combined k2 l2 tr2 coll2 mb mb' r2 ->
  map snd coll1 = map snd coll2 ->
  option_map snd r1 = option_map snd r2.
Proof.
  unfold combined; intros H1 H2 E.
  destruct coll1 as [|c1 coll1], coll2 as [|c2 coll2]; try discriminate E.
  - destruct H1 as [-> _], H2 as [-> _]; reflexivity.
  - destruct H1 as (lo1 & hi1 & Hlo1 & Hhi1 & -> & _).
    destruct H2 as (lo2 & hi2 & Hlo2 & Hhi2 & -> & _).
    rewrite E in Hlo1, Hhi1. simpl.
    now rewrite (is_max_unique _ _ _ Hlo1 Hlo2), (is_max_unique _ _ _ Hhi1 Hhi2).
Qed.

Lemma encoder_bounds_indep f :
  forall l1 l2 t tr1 tr2 m1 m2 m1' m2' r1 r2,
    add_stl_constr l1 f t tr1 m1 = (m1', Ok r1) ->
    add_stl_constr l2 f t tr2 m2 = (m2', Ok r2) ->
    option_map snd r1 = option_map snd r2.
Proof.
  induction f as [s|g IHg IHh|args IH|args IH|w g IHg|g IHg|w g IHg]
    using Formula_encoder_ind;
    intros l1 l2 t tr1 tr2 m1 m2 m1' m2' r1 r2 H1 H2.
  - simpl in H1, H2; unfold _stl_expr, bind, call, ret in H1, H2.
    destruct (signal s t); simpl in H1, H2; inversion H1; inversion H2;
      reflexivity.
  - destruct (not_cases g) as [[h ->] | Hg].
    + rewrite not_not_eq in H1, H2.
      apply bind_ok_inv in H1 as (? & ? & _ & H1).
      apply bind_ok_inv in H1 as (? & ? & _ & H1).
      apply bind_ok_inv in H2 as (? & ? & _ & H2).
      apply bind_ok_inv in H2 as (? & ? & _ & H2).
      eapply IHh; eauto.
    + rewrite not_plain_eq in H1, H2 by exact Hg.
      apply bind_ok_inv in H1 as (? & ? & _ & H1).
      apply bind_ok_inv in H1 as (? & res1 & Hg1 & H1).
      apply bind_ok_inv in H2 as (? & ? & _ & H2).
      apply bind_ok_inv in H2 as (? & res2 & Hg2 & H2).
      pose proof (IHg _ _ _ _ _ _ _ _ _ _ _ Hg1 Hg2) as E.
      destruct res1 as [[y1 b1]|], res2 as [[y2 b2]|]; simpl in E;
        try discriminate E; unfold bind, call, ret in H1, H2; simpl in H1, H2;
        inversion H1; inversion H2; subst; simpl; congruence.
  - apply (node_run _ _ _ _ Min) in H1 as (? & rs1 & Hr1 & Hc1); [|reflexivity].
    apply (node_run _ _ _ _ Min) in H2 as (? & rs2 & Hr2 & Hc2); [|reflexivity].
    eapply combined_same_bounds; eauto.
    eapply child_runs_same_bounds; [|exact Hr1|exact Hr2].
    intros a i1 i2 ma ma' mb mb' ra rb Hin (? & _ & Ha) (? & _ & Hb).
    rewrite Forall_forall in IH. eapply IH; eauto.
  - apply (node_run _ _ _ _ Max) in H1 as (? & rs1 & Hr1 & Hc1); [|reflexivity].
    apply (node_run _ _ _ _ Max) in H2 as (? & rs2 & Hr2 & Hc2); [|reflexivity].
    eapply combined_same_bounds; eauto.
    eapply child_runs_same_bounds; [|exact Hr1|exact Hr2].
    intros a i1 i2 ma ma' mb mb' ra rb Hin (? & _ & Ha) (? & _ & Hb).
    rewrite Forall_forall in IH. eapply IH; eauto.
  - apply (node_run _ _ _ _ Min) in H1 as (? & rs1 & Hr1 & Hc1); [|reflexivity].
    apply (node_run _ _ _ _ Min) in H2 as (? & rs2 & Hr2 & Hc2); [|reflexivity].
    eapply combined_same_bounds; eauto.
    eapply child_runs_same_bounds; [|exact Hr1|exact Hr2].
    intros a i1 i2 ma ma' mb mb' ra rb Hin (? & _ & Ha) (? & _ & Hb).
    eapply IHg; eauto.
  - simpl in H1, H2; unfold _stl_next in H1, H2. eapply IHg; eauto.
  - apply (node_run _ _ _ _ Max) in H1 as (? & rs1 & Hr1 & Hc1); [|reflexivity].
    apply (node_run _ _ _ _ Max) in H2 as (? & rs2 & Hr2 & Hc2); [|reflexivity].
    eapply combined_same_bounds; eauto.
    eapply child_runs_same_bounds; [|exact Hr1|exact Hr2].
    intros a i1 i2 ma ma' mb mb' ra rb Hin (? & _ & Ha) (? & _ & Hb).
    eapply IHg; eauto.
Qed.

(** ** Warm-start hints do not change the structure *)

Lemma record_extend m ops o : record (extend m ops) o = extend m (ops ++ [o]).
Proof. unfold record, extend; simpl. now rewrite app_assoc. Qed.

Lemma extend_nil m : extend m [] = m.
Proof. destruct m; unfold extend; simpl. now rewrite app_nil_r. Qed.

Lemma hints_only_refl m : hints_only m m m.
Proof. exists []; simpl; now rewrite extend_nil. Qed.

Lemma hints_only_record m ma mb o :
  hints_only m ma mb -> hints_only m (record ma o) (record mb (erase_start o)).
Proof.
  intros (ops & -> & ->). exists (ops ++ [o])%list.
  now rewrite !record_extend, map_app.
Qed.

Lemma collect_sim {A} (R : Model -> Model -> Prop)
    (body1 body2 : nat -> A -> M Enc) l :
  forall i acc ma mb,
    R ma mb ->
    (forall k a ma mb, nth_error l k = Some a -> R ma mb ->
       exists ma' mb' r, body1 (i + k)%nat a ma = (ma', Ok r) /\
                         body2 (i + k)%nat a mb = (mb', Ok r) /\ R ma' mb') ->
    exists ma' mb' coll,
      collect body1 i l acc ma = (ma', Ok coll) /\
      collect body2 i l acc mb = (mb', Ok coll) /\ R ma' mb'.
Proof.
  induction l as [|a l IH]; intros i acc ma mb HR Hb; simpl.
  - exists ma, mb, acc; auto.
  - destruct (Hb 0%nat a ma mb eq_refl HR) as (ma1 & mb1 & r & E1 & E2 & HR1).
    rewrite Nat.add_0_r in E1, E2.
    erewrite !bind_ok by eassumption.
    apply IH; [exact HR1|].
    intros k a' ma' mb' Hn HR'.
    rewrite Nat.add_succ_l, <- Nat.add_succ_r. apply Hb; assumption.
Qed.

Lemma combine_sim m0 k label tree coll ma mb :
  hints_only m0 ma mb ->
  exists ma' mb' r,
    combine k label tree coll ma = (ma', Ok r) /\
    combine k label None coll mb = (mb', Ok r) /\
    hints_only m0 ma' mb'.
Proof.
  intros H; unfold combine, add_minmax, bind, call, ret.
  destruct coll as [|xb coll']; simpl.
  - exists ma, mb, None; auto.
  - do 3 eexists; split; [reflexivity|]; split; [reflexivity|].
    apply (hints_only_record _ _ _ (OMinMax _ _ _ _ _ _ _)); exact H.
Qed.

Lemma shape_args_nth args : forall cs k a,
  (fix go (l : list Formula) (cs : list (option RobustnessTree)) : Prop :=
     match l, cs with
     | [], [] => True
     | ff :: l', c :: cs' =>
         match c with
         | Some tr' => shape_matches ff tr'
         | None => True
         end /\ go l' cs'
     | _, _ => False
     end) args cs ->
  nth_error args k = Some a ->
  exists c, nth_error cs k = Some c /\ opt_shape a c.
Proof.
  induction args as [|ff args IH]; intros cs k a H Hn.
  - destruct k; discriminate Hn.
  - destruct cs as [|c cs]; [contradiction|]. destruct H as [Hc H].
    destruct k as [|k]; simpl in Hn.
    + inversion Hn; subst. exists c; split; [reflexivity | exact Hc].
    + simpl. exact (IH cs k a H Hn).
Qed.

Lemma shape_window_nth w g tr k :
  shape_matches (Always w g) tr ->
  (k < Z.to_nat (snd w + 1 - fst w))%nat ->
  exists c, nth_error (children tr) k = Some c /\ opt_shape g c.
Proof.
  simpl; intros [Hlen Hall] Hk.
  destruct (nth_error (children tr) k) as [c|] eqn:E.
  - exists c; split; [reflexivity|].
    rewrite Forall_forall in Hall. apply (Hall c). eapply nth_error_In; eauto.
  - apply nth_error_None in E; lia.
Qed.

Lemma child_tree_some tr i c m :
  nth_error (children tr) i = Some c ->
  child_tree (Some tr) i m = (m, Ok c).
Proof. simpl; unfold getitem, ret; now intros ->. Qed.

(** One offset of a window, with and without a tree. *)
Lemma offset_sim label op g t b1 b2 otr m0 :
  (forall label t otr m0 ma mb,
      opt_shape g otr -> hints_only m0 ma mb ->
      exists ma' mb' r,
        add_stl_constr label g t otr ma = (ma', Ok r) /\
        add_stl_constr label g t None mb = (mb', Ok r) /\
        hints_only m0 ma' mb') ->
  opt_shape (Always (b1, b2) g) otr ->
  forall k i ma mb,
    nth_error (range_incl b1 b2) k = Some i ->
    hints_only m0 ma mb ->
    exists ma' mb' r,
      (tr <- child_tree otr (Z.to_nat (i - b1)) ;;
       add_stl_constr (label ++ "_" ++ op ++ str i) g (t + i) tr) ma
      = (ma', Ok r) /\
      (tr <- child_tree None (Z.to_nat (i - b1)) ;;
       add_stl_constr (label ++ "_" ++ op ++ str i) g (t + i) tr) mb
      = (mb', Ok r) /\
      hints_only m0 ma' mb'.
Proof.
  intros IHg Hs k i ma mb Hn HR.
  assert (Hk : (k < Z.to_nat (b2 + 1 - b1))%nat).
  { rewrite <- range_incl_length. apply nth_error_Some. congruence. }
  rewrite range_incl_nth in Hn by exact Hk. inversion Hn; subst i.
  replace (Z.to_nat (b1 + Z.of_nat k - b1)) with k by lia.
  destruct otr as [tr|].
  - destruct (shape_window_nth (b1, b2) g tr k Hs Hk) as (c & Hc & Hsc).
    erewrite bind_ok by (apply child_tree_some; exact Hc).
    erewrite (bind_ok (child_tree None k)) by reflexivity.
    apply IHg; assumption.
  - erewrite !(bind_ok (child_tree None k)) by reflexivity.
    apply IHg; [exact I | assumption].
Qed.

(** One argument of an And/Or node, with and without a tree. *)
Lemma arg_sim label op args t otr m0 :
  Forall (fun f => forall label t otr m0 ma mb,
      opt_shape f otr -> hints_only m0 ma mb ->
      exists ma' mb' r,
        add_stl_constr label f t otr ma = (ma', Ok r) /\
        add_stl_constr label f t None mb = (mb', Ok r) /\
        hints_only m0 ma' mb') args ->
  opt_shape (And args) otr ->
  forall k ff ma mb,
    nth_error args k = Some ff ->
    hints_only m0 ma mb ->
    exists ma' mb' r,
      (tr <- child_tree otr k ;;
       add_stl_constr (label ++ "_" ++ op ++ str (Z.of_nat k)) ff t tr) ma
      = (ma', Ok r) /\
      (tr <- child_tree None k ;;
       add_stl_constr (label ++ "_" ++ op ++ str (Z.of_nat k)) ff t tr) mb
      = (mb', Ok r) /\
      hints_only m0 ma' mb'.
Proof.
  intros IH Hs k ff ma mb Hn HR.
  rewrite Forall_forall in IH.
  pose proof (IH ff (nth_error_In _ _ Hn)) as IHff.
  destruct otr as [tr|].
  - destruct (shape_args_nth args (children tr) k ff Hs Hn) as (c & Hc & Hsc).
    erewrite bind_ok by (apply child_tree_some; exact Hc).
    erewrite (bind_ok (child_tree None k)) by reflexivity.
    apply IHff; assumption.
  - erewrite !(bind_ok (child_tree None k)) by reflexivity.
    apply IHff; [exact I | assumption].
Qed.

Lemma shape_not g tr :
  shape_matches (Not g) tr -> exists c, children tr = [c] /\ opt_shape g c.
Proof.
  simpl. destruct (children tr) as [|c [|c' cs]]; try contradiction.
  intros H; exists c; split; [reflexivity | exact H].
Qed.

(** The tree handed to the child of a Not, for a tree that mirrors it. *)
Lemma shape_not_child g otr m :
  opt_shape (Not g) otr ->
  exists c, child_tree otr 0 m = (m, Ok c) /\ opt_shape g c.
Proof.
  destruct otr as [tr|]; intros H.
  - apply shape_not in H as (c & Hc & Hs). exists c; split; [|exact Hs].
    apply child_tree_some. now rewrite Hc.
  - exists None; split; [reflexivity | exact I].
Qed.

(** The loop followed by the combination, on both sides at once. *)
Lemma loop_sim {A} m0 (body1 body2 : nat -> A -> M Enc) l k label otr ma mb :
  hints_only m0 ma mb ->
  (forall i a ma mb, nth_error l i = Some a -> hints_only m0 ma mb ->
     exists ma' mb' r, body1 i a ma = (ma', Ok r) /\
                       body2 i a mb = (mb', Ok r) /\
                       hints_only m0 ma' mb') ->
  exists ma' mb' r,
    (coll <- collect body1 0%nat l [] ;; combine k label otr coll) ma
    = (ma', Ok r) /\
    (coll <- collect body2 0%nat l [] ;; combine k label None coll) mb
    = (mb', Ok r) /\
    hints_only m0 ma' mb'.
Proof.
  intros HR Hb.
  destruct (collect_sim (hints_only m0) body1 body2 l 0%nat [] ma mb HR Hb)
    as (ma1 & mb1 & coll & E1 & E2 & HR1).
  erewrite !bind_ok by eassumption. apply combine_sim; exact HR1.
Qed.

(** Encoding with a tree that mirrors the formula and encoding without a
    tree go through the same calls, up to the warm-start hints, and return
    the same result; neither raises. *)
Lemma encoder_sim f :
  forall label t otr m0 ma mb,
    opt_shape f otr -> hints_only m0 ma mb ->
    exists ma' mb' r,
      add_stl_constr label f t otr ma = (ma', Ok r) /\
      add_stl_constr label f t None mb = (mb', Ok r) /\
      hints_only m0 ma' mb'.
Proof.
  induction f as [s|g IHg IHh|args IH|args IH|w g IHg|g IHg|w g IHg]
    using Formula_encoder_ind; intros label t otr m0 ma mb Hs HR.
  - simpl; unfold _stl_expr. destruct (signal s t) as [e|].
    + unfold bind, call, ret; simpl.
      do 3 eexists; split; [reflexivity|]; split; [reflexivity|].
      apply (hints_only_record _ _ _ (OConstrEq label e)).
      apply (hints_only_record _ _ _ (OSetStart label (start_of otr))).
      apply (hints_only_record _ _ _ (OAddVar label _ _)). exact HR.
    + exists ma, mb, None; auto.
  - destruct (shape_not_child g otr ma Hs) as (c & Hc & Hsc).
    destruct (not_cases g) as [[h ->] | Hg].
    + rewrite !not_not_eq.
      erewrite bind_ok by exact Hc.
      erewrite (bind_ok (child_tree None 0)) by reflexivity.
      destruct (shape_not_child h c ma Hsc) as (c' & Hc' & Hsc').
      erewrite bind_ok by exact Hc'.
      erewrite (bind_ok (child_tree None 0)) by reflexivity.
      apply (IHh h eq_refl); assumption.
    + rewrite !not_plain_eq by exact Hg.
      erewrite bind_ok by exact Hc.
      erewrite (bind_ok (child_tree None 0)) by reflexivity.
      destruct (IHg (label ++ "_not") t c m0 ma mb Hsc HR)
        as (ma1 & mb1 & res & E1 & E2 & HR1).
      erewrite !bind_ok by eassumption.
      destruct res as [[x b]|].
      * unfold bind, call, ret; simpl.
        do 3 eexists; split; [reflexivity|]; split; [reflexivity|].
        apply (hints_only_record _ _ _ (OConstrNeg label x)).
        apply (hints_only_record _ _ _ (OSetStart label (start_of otr))).
        apply (hints_only_record _ _ _ (OAddVar label _ _)). exact HR1.
      * exists ma1, mb1, None; auto.
  - simpl; unfold _stl_and_or.
    apply loop_sim; [exact HR | intros; eapply arg_sim; eauto].
  - simpl; unfold _stl_and_or.
    apply loop_sim; [exact HR | intros; eapply arg_sim; eauto].
  - destruct w as [b1 b2]; simpl; unfold _stl_always_eventually.
    apply loop_sim; [exact HR | intros; eapply (offset_sim label "alw"); eauto].
  - simpl; unfold _stl_next. apply IHg; [|exact HR].
    destruct otr; exact Hs.
  - destruct w as [b1 b2]; simpl; unfold _stl_always_eventually.
    apply loop_sim; [exact HR | intros; eapply (offset_sim label "eve"); eauto].
Qed.

(** Without a tree the encoder never raises. *)
Lemma no_tree_ok label f t m :
  exists m' r, add_stl_constr label f t None m = (m', Ok r).
Proof.
  destruct (encoder_sim f label t None m m m I (hints_only_refl m))
    as (m' & _ & r & E & _).
  eauto.
Qed.

(** ** Combination of the bounds *)

(** C1, as the specification words it, does not hold: for
    [And [x in [-5,1]; y in [-2,3]]] the encoder returns [(-2, 3)], the
    maximum of the lower bounds and the maximum of the upper bounds, whereas
    the maxima of the absolute values are [(5, 3)]. *)
Lemma abs_max_bounds_refuted : ~ bounds_are_abs_max.
Proof.
  intros H.
  assert (Habs : abs_combination (-2) 3 [(-5, 1); (-2, 3)]).
  { apply (H "spec" and_xy 0 None model0
             (extend model0 [OAddVar "spec_and0" (-5) 1;
                             OSetStart "spec_and0" None;
                             OConstrEq "spec_and0" "x0";
                             OAddVar "spec_and1" (-2) 3;
                             OSetStart "spec_and1" None;
                             OConstrEq "spec_and1" "y0"])
             (extend model0 [OAddVar "spec_and0" (-5) 1;
                             OSetStart "spec_and0" None;
                             OConstrEq "spec_and0" "x0";
                             OAddVar "spec_and1" (-2) 3;
                             OSetStart "spec_and1" None;
                             OConstrEq "spec_and1" "y0";
                             OMinMax Min "spec" ["spec_and0"; "spec_and1"] 3
                                     false None None])
             [Some ("spec_and0", (-5, 1)); Some ("spec_and1", (-2, 3))]
             "spec" (-2, 3) Min).
    - reflexivity.
    - simpl. econstructor.
      + exists None; split; [reflexivity | cbv; reflexivity].
      + econstructor;
          [exists None; split; [reflexivity | cbv; reflexivity] | constructor].
    - reflexivity. }
  destruct Habs as [[Hin _] _]. simpl in Hin.
  destruct Hin as [Hin | [Hin | []]]; discriminate Hin.
Qed.

(** C1, amended: for every And/Or/Always/Eventually node that returns a
    variable, the returned pair is the element-wise maximum of the bounds of
    the collected children (the greatest lower bound entry, the greatest
    upper bound entry; no absolute values), and the constant [K] handed to
    the min/max encoder is the larger absolute value of that pair. *)
Theorem combined_bounds_are_signed_max label f t tree k m m' y bds :
  node_kind f = Some k ->
  add_stl_constr label f t tree m = (m', Ok (Some (y, bds))) ->
  exists m1 rs,
    node_children_runs label f t tree m m1 rs /\
    somes rs <> [] /\
    is_max (fst bds) (map fst (map snd (somes rs))) /\
    is_max (snd bds) (map snd (map snd (somes rs))) /\
    m' = record m1 (OMinMax k label (map fst (somes rs)) (max_abs bds) false
                            (start_of tree) (index_of tree)).
Proof.
  intros Hk H.
  apply (node_run _ _ _ _ k) in H as (m1 & rs & Hrs & Hc); [|exact Hk].
  exists m1, rs; split; [exact Hrs|].
  unfold combined in Hc. destruct (somes rs) as [|xb coll] eqn:Es.
  - destruct Hc as [Hc _]; discriminate Hc.
  - destruct Hc as (lo & hi & Hlo & Hhi & Hr & ->).
    inversion Hr; subst. simpl fst; simpl snd.
    split; [discriminate|]. split; [exact Hlo|]. split; [exact Hhi|].
    reflexivity.
Qed.

Lemma combined_bounds_are_signed_max_witness :
  exists m1 rs,
    node_children_runs "spec" and_xy 0 None model0 m1 rs /\
    somes rs <> [] /\
    is_max (-2) (map fst (map snd (somes rs))) /\
    is_max 3 (map snd (map snd (somes rs))) /\
    fst (add_stl_constr "spec" and_xy 0 None model0)
    = record m1 (OMinMax Min "spec" (map fst (somes rs)) 3 false None None).
Proof.
  apply (combined_bounds_are_signed_max "spec" and_xy 0 None Min model0
           (fst (add_stl_constr "spec" and_xy 0 None model0))
           "spec" (-2, 3)); reflexivity.
Defined.

(** ** Negation and the bounds *)

(** A Not node over a leaf returns the bounds of the leaf unchanged and
    declares them as the range of [y], while the constraints make [y] the
    opposite of the signal. *)
Lemma not_leaf_run label s t tree m x :
  signal s t = Some x ->
  add_stl_constr label (Not (Expr s)) t tree m =
  match child_tree tree 0 m with
  | (_, Ok sub) =>
      (extend m [OAddVar (label ++ "_not") (fst (bounds s)) (snd (bounds s));
                 OSetStart (label ++ "_not") (start_of sub);
                 OConstrEq (label ++ "_not") x;
                 OAddVar label (fst (bounds s)) (snd (bounds s));
                 OSetStart label (start_of tree);
                 OConstrNeg label (label ++ "_not")],
       Ok (Some (label, bounds s)))
  | (_, Raise e) => (m, Raise e)
  end.
Proof.
  intros Hx. rewrite not_plain_eq by (intros h E; discriminate E).
  unfold bind at 1.
  destruct (child_tree tree 0 m) as [m1 [sub|e]] eqn:E;
    pose proof (child_tree_model _ _ _ _ _ E) as ->; [|reflexivity].
  simpl add_stl_constr; unfold _stl_expr; rewrite Hx.
  unfold bind, call, ret, record, extend; simpl.
  now rewrite <- !app_assoc.
Qed.

(** C2, the code evaluated where it departs from the claim:
    [Not (Expr z)] with [z] declared in [[0, 10]].  The encoder returns the
    pair [(0, 10)] for the node whose variable is constrained to [-z].  A
    signal value 5 lies in the declared range and satisfies every constraint
    with robustness -5, outside the returned pair; and since [(0, 10)] is
    also declared as the range of the new variable, the model admits no
    signal value but 0. *)
Theorem negation_bounds_unsound :
  exists m',
    add_stl_constr "spec" (Not (Expr sig_z)) 0 None model0
    = (m', Ok (Some ("spec", (0, 10)))) /\
    calls m' = [OAddVar "spec_not" 0 10; OSetStart "spec_not" None;
                OConstrEq "spec_not" "z0";
                OAddVar "spec" 0 10; OSetStart "spec" None;
                OConstrNeg "spec" "spec_not"] /\
    (exists v : Valuation,
        v "z0" = 5 /\ within (v "z0") (bounds sig_z) /\
        Forall (constraint_holds v) (calls m') /\
        v "spec" = -5 /\ ~ within (v "spec") (0, 10)) /\
    (forall v : Valuation,
        Forall (constraint_holds v) (calls m') ->
        Forall (range_holds v) (calls m') ->
        v "z0" = 0).
Proof.
  exists (extend model0
            [OAddVar "spec_not" 0 10; OSetStart "spec_not" None;
             OConstrEq "spec_not" "z0";
             OAddVar "spec" 0 10; OSetStart "spec" None;
             OConstrNeg "spec" "spec_not"]).
  split; [vm_compute; reflexivity|]. split; [reflexivity|]. split.
  - exists (fun n => if String.eqb n "z0" then 5
                     else if String.eqb n "spec_not" then 5
                     else if String.eqb n "spec" then -5 else 0).
    split; [reflexivity|]. split; [unfold within; simpl; lia|].
    split; [repeat constructor|]. split; [reflexivity|].
    unfold within; simpl; lia.
  - simpl; intros v Hc Hr.
    inversion Hc as [|? ? _ Hc1]; subst; clear Hc.
    inversion Hc1 as [|? ? _ Hc2]; subst; clear Hc1.
    inversion Hc2 as [|? ? Heq Hc3]; subst; clear Hc2.
    inversion Hc3 as [|? ? _ Hc4]; subst; clear Hc3.
    inversion Hc4 as [|? ? _ Hc5]; subst; clear Hc4.
    inversion Hc5 as [|? ? Hneg _]; subst; clear Hc5.
    inversion Hr as [|? ? Hr1 Hr']; subst; clear Hr.
    inversion Hr' as [|? ? _ Hr'']; subst; clear Hr'.
    inversion Hr'' as [|? ? _ Hr3]; subst; clear Hr''.
    inversion Hr3 as [|? ? Hr4 _]; subst; clear Hr3.
    simpl in Heq, Hneg, Hr1, Hr4. lia.
Qed.

(** C3: a double negation is encoded as its body, under the same label and
    at the same time, with the tree descended two levels; when the descent
    runs out of children the lookup raises before anything is added. *)
Theorem double_negation_elimination label phi t tree m :
  add_stl_constr label (Not (Not phi)) t tree m =
  match descend2 tree with
  | Ok tree2 => add_stl_constr label phi t tree2 m
  | Raise e => (m, Raise e)
  end.
Proof.
  rewrite not_not_eq. unfold descend2, descend, bind, child_tree, getitem.
  destruct tree as [tr|]; [|reflexivity].
  destruct (nth_error (children tr) 0) as [[tr'|]|]; try reflexivity.
  unfold ret, raise.
  destruct (nth_error (children tr') 0) as [c|]; reflexivity.
Qed.

(** ** Temporal operators *)

(** C4: an Always (resp. Eventually) node over the window [[a, b]] at base
    time [t] runs the encoder on its child once for each offset
    [a, a+1, ..., b], in this order, at time [t + i], under the label
    [label_alwi] (resp. [label_evei]) and with the tree's child [i - a] when
    there is a tree; the results that are not [None] are then handed to the
    min (resp. max) encoder.  Conversely such a run is the outcome of the
    node.  A Next node is its child one step later, with the same label and
    the same tree node. *)
Theorem temporal_operators_unfold label a b g t tree :
  (forall m, add_stl_constr label (Next g) t tree m
             = add_stl_constr label g (t + 1) tree m) /\
  (forall m m' r,
      add_stl_constr label (Always (a, b) g) t tree m = (m', Ok r) <->
      exists m1 rs,
        child_runs (offset_run label "alw" g t a tree) 0 (range_incl a b)
                   m m1 rs /\
        combined Min label tree (somes rs) m1 m' r) /\
  (forall m m' r,
      add_stl_constr label (Eventually (a, b) g) t tree m = (m', Ok r) <->
      exists m1 rs,
        child_runs (offset_run label "eve" g t a tree) 0 (range_incl a b)
                   m m1 rs /\
        combined Max label tree (somes rs) m1 m' r) /\
  List.length (range_incl a b) = Z.to_nat (b - a + 1) /\
  (forall k, (k < Z.to_nat (b - a + 1))%nat ->
             nth_error (range_incl a b) k = Some (a + Z.of_nat k)) /\
  (forall i, In i (range_incl a b) <-> a <= i <= b).
Proof.
  split; [reflexivity|].
  split; [intros m m' r; apply (node_run label (Always (a, b) g)); reflexivity|].
  split; [intros m m' r; apply (node_run label (Eventually (a, b) g));
          reflexivity|].
  split; [rewrite range_incl_length; f_equal; lia|].
  split; [|apply range_incl_In].
  intros k Hk; apply range_incl_nth.
  replace (b + 1 - a) with (b - a + 1) by lia. exact Hk.
Qed.

(** ** Children without a signal *)

(** C5: the children (arguments or offsets) of an And, Or, Always or
    Eventually node that return [None] are skipped.  When all of them do,
    the node returns [None] and the model is exactly what it was before the
    node: nothing was added, by the node or below it.  Otherwise one
    variable is produced by the min/max encoder, from the variables of the
    children that did not return [None], in order. *)
Theorem none_children_are_skipped label f t tree k m m' r :
  node_kind f = Some k ->
  add_stl_constr label f t tree m = (m', Ok r) ->
  exists m1 rs,
    node_children_runs label f t tree m m1 rs /\
    ((Forall (fun c => c = None) rs /\ r = None /\ m' = m) \/
     (exists x xs bds K,
         somes rs = x :: xs /\
         r = Some (label, bds) /\
         m' = record m1 (OMinMax k label (map fst (x :: xs)) K false
                                 (start_of tree) (index_of tree)))).
Proof.
  intros Hk H.
  apply (node_run _ _ _ _ k) in H as (m1 & rs & Hrs & Hc); [|exact Hk].
  exists m1, rs; split; [exact Hrs|].
  unfold combined in Hc. destruct (somes rs) as [|x xs] eqn:Es.
  - left. destruct Hc as [-> ->].
    assert (Hnone : m1 = m /\ Forall (fun c => c = None) rs).
    { destruct f as [s|g|args|args|w g|g|w g]; simpl in Hk;
        try discriminate Hk; simpl in Hrs;
        (eapply child_runs_none; [exact Hrs | | exact Es]);
        intros i a0 ma mb _ (sub & _ & Hr);
        eapply none_adds_nothing; exact Hr. }
    destruct Hnone as [-> Hall]. auto.
  - right. destruct Hc as (lo & hi & _ & _ & -> & ->).
    exists x, xs, (lo, hi), (Z.max (Z.abs lo) (Z.abs hi)). auto.
Qed.

Lemma none_children_are_skipped_witness :
  exists m1 rs,
    node_children_runs "spec" (And [next3_z; Expr sig_y]) 0 None model0 m1 rs /\
    ((Forall (fun c => c = None) rs /\
      Some ("spec", (-2, 3)) = None /\
      fst (add_stl_constr "spec" (And [next3_z; Expr sig_y]) 0 None model0)
      = model0) \/
     (exists x xs bds K,
         somes rs = x :: xs /\
         Some ("spec", (-2, 3)) = Some ("spec", bds) /\
         fst (add_stl_constr "spec" (And [next3_z; Expr sig_y]) 0 None model0)
         = record m1 (OMinMax Min "spec" (map fst (x :: xs)) K false
                              None None))).
Proof.
  apply (none_children_are_skipped "spec" (And [next3_z; Expr sig_y]) 0 None
           Min model0
           (fst (add_stl_constr "spec" (And [next3_z; Expr sig_y]) 0 None
                                model0))
           (Some ("spec", (-2, 3)))); reflexivity.
Defined.

(** ** Warm start *)

Lemma erase_start_idem o : erase_start (erase_start o) = erase_start o.
Proof. destruct o; reflexivity. Qed.

(** C6: for a tree that mirrors the formula (children may be [None]),
    encoding with the tree and encoding without a tree return the same
    variable and bounds and make the same calls on the model, except for
    the warm-start hints: the start of a variable and the start and start
    index handed to the min/max encoder.  Without a tree every hint is
    unset, and neither run raises. *)
Theorem warm_start_changes_hints_only label f t tr m :
  shape_matches f tr ->
  exists ops r,
    add_stl_constr label f t (Some tr) m = (extend m ops, Ok r) /\
    add_stl_constr label f t None m = (extend m (map erase_start ops), Ok r) /\
    Forall start_unset (map erase_start ops).
Proof.
  intros Hs.
  destruct (encoder_sim f label t (Some tr) m m m Hs (hints_only_refl m))
    as (ma & mb & r & E1 & E2 & (ops & -> & ->)).
  exists ops, r; split; [exact E1|]. split; [exact E2|].
  apply Forall_forall; intros o Ho.
  apply in_map_iff in Ho as (o' & <- & _). apply erase_start_idem.
Qed.

Lemma warm_start_changes_hints_only_witness :
  exists ops r,
    add_stl_constr "spec" alw_not_x 0 (Some tree_alw_not_x) model0
    = (extend model0 ops, Ok r) /\
    add_stl_constr "spec" alw_not_x 0 None model0
    = (extend model0 (map erase_start ops), Ok r) /\
    Forall start_unset (map erase_start ops).
Proof.
  apply (warm_start_changes_hints_only "spec" alw_not_x 0 tree_alw_not_x
           model0).
  simpl. split; [reflexivity|]. repeat constructor.
Defined.

(** ** And/Or duality *)

(** C7: encoded at the same time, And and Or over the same arguments return
    the same bounds (and are [None] together), whatever the labels, trees
    and models; when they return a variable, the last call of the one is the
    min encoder and of the other the max encoder, with the same [K]. *)
Theorem and_or_same_bounds args t l1 l2 tr1 tr2 m1 m2 m1' m2' r1 r2 :
  add_stl_constr l1 (And args) t tr1 m1 = (m1', Ok r1) ->
  add_stl_constr l2 (Or args) t tr2 m2 = (m2', Ok r2) ->
  option_map snd r1 = option_map snd r2 /\
  (forall y b, r1 = Some (y, b) ->
     exists ma mb xx1 xx2,
       m1' = record ma (OMinMax Min l1 xx1 (max_abs b) false
                                (start_of tr1) (index_of tr1)) /\
       m2' = record mb (OMinMax Max l2 xx2 (max_abs b) false
                                (start_of tr2) (index_of tr2))).
Proof.
  intros H1 H2.
  apply (node_run _ _ _ _ Min) in H1 as (ma & rs1 & Hr1 & Hc1); [|reflexivity].
  apply (node_run _ _ _ _ Max) in H2 as (mb & rs2 & Hr2 & Hc2); [|reflexivity].
  simpl in Hr1, Hr2.
  assert (E : map snd (somes rs1) = map snd (somes rs2)).
  { eapply child_runs_same_bounds; [|exact Hr1|exact Hr2].
    intros a i1 i2 na na' nb nb' ra rb _ (? & _ & Ha) (? & _ & Hb).
    eapply encoder_bounds_indep; eauto. }
  split; [eapply combined_same_bounds; eauto|].
  intros y b ->. unfold combined in Hc1, Hc2.
  destruct (somes rs1) as [|c1 coll1]; [destruct Hc1 as [Hc1 _]; discriminate|].
  destruct (somes rs2) as [|c2 coll2]; [discriminate E|].
  destruct Hc1 as (lo1 & hi1 & Hlo1 & Hhi1 & Hb1 & ->).
  destruct Hc2 as (lo2 & hi2 & Hlo2 & Hhi2 & _ & ->).
  inversion Hb1; subst. rewrite E in Hlo1, Hhi1.
  rewrite (is_max_unique _ _ _ Hlo2 Hlo1), (is_max_unique _ _ _ Hhi2 Hhi1).
  do 4 eexists; split; reflexivity.
Qed.

Lemma and_or_same_bounds_witness :
  option_map snd (Some ("phi", (-2, 3))) = option_map snd (Some ("psi", (-2, 3)))
  /\
  (forall y b, Some ("phi", (-2, 3)) = Some (y, b) ->
     exists ma mb xx1 xx2,
       fst (add_stl_constr "phi" (And [Expr sig_x; Expr sig_y]) 0 None model0)
       = record ma (OMinMax Min "phi" xx1 (max_abs b) false None None) /\
       fst (add_stl_constr "psi" (Or [Expr sig_x; Expr sig_y]) 0 None model0)
       = record mb (OMinMax Max "psi" xx2 (max_abs b) false None None)).
Proof.
  apply (and_or_same_bounds [Expr sig_x; Expr sig_y] 0 "phi" "psi" None None
           model0 model0
           (fst (add_stl_constr "phi" (And [Expr sig_x; Expr sig_y]) 0 None
                                model0))
           (fst (add_stl_constr "psi" (Or [Expr sig_x; Expr sig_y]) 0 None
                                model0))
           (Some ("phi", (-2, 3))) (Some ("psi", (-2, 3)))); reflexivity.
Defined.

(** ** Malformed trees *)

Lemma child_tree_missing tr i m :
  (List.length (children tr) <= i)%nat ->
  child_tree (Some tr) i m = (m, Raise IndexError).
Proof.
  intros Hi; simpl; unfold getitem.
  apply nth_error_None in Hi. now rewrite Hi.
Qed.

(** C8, as the specification words it, does not hold: a node with more
    children than the formula has arguments is accepted, and the surplus is
    ignored. *)
Lemma surplus_children_accepted : ~ wrong_arity_always_fails.
Proof.
  intros H.
  destruct (H "spec" (And [Expr sig_y]) 0 (RTree 1 None [None; None]) model0)
    as (m' & e & E).
  - discriminate.
  - simpl; lia.
  - vm_compute in E. discriminate E.
Qed.

(** C8, amended: when the node of the tree has fewer children than the
    formula node looks up — one per argument of And/Or, one per offset of
    the window of Always/Eventually, one for Not — the encoding raises
    IndexError. *)
Theorem missing_children_raise label f t tr m :
  (List.length (children tr) < children_needed f)%nat ->
  exists m', add_stl_constr label f t (Some tr) m = (m', Raise IndexError).
Proof.
  intros Hlen.
  enough (H : exists m' e,
             add_stl_constr label f t (Some tr) m = (m', Raise e)).
  { destruct H as (m' & e & E). exists m'.
    now rewrite (encoder_raises_index_error _ _ _ _ _ _ _ E) in E. }
  assert (Hloop : forall (A : Type) (body : nat -> A -> M Enc) l k,
    (List.length (children tr) < List.length l)%nat ->
    (forall a ma, exists mb e,
        body (List.length (children tr)) a ma = (mb, Raise e)) ->
    exists m' e,
      (coll <- collect body 0%nat l [] ;; combine k label (Some tr) coll) m
      = (m', Raise e)).
  { intros A body l k Hl Hb.
    destruct (collect_raises body l 0%nat [] m (List.length (children tr)) Hl)
      as (m' & e & E); [intros a ma _; apply Hb|].
    exists m', e. now apply bind_raise. }
  destruct f as [s|g|args|args|[b1 b2] g|g|[b1 b2] g]; simpl in Hlen;
    try lia.
  - exists m, IndexError. simpl; unfold _stl_not.
    apply bind_raise, child_tree_missing; lia.
  - simpl; unfold _stl_and_or. apply Hloop; [exact Hlen|].
    intros a ma; exists ma, IndexError.
    apply bind_raise, child_tree_missing; lia.
  - simpl; unfold _stl_and_or. apply Hloop; [exact Hlen|].
    intros a ma; exists ma, IndexError.
    apply bind_raise, child_tree_missing; lia.
  - simpl; unfold _stl_always_eventually.
    destruct (collect_raises
                (fun (_ : nat) i =>
                   tree <- child_tree (Some tr) (Z.to_nat (i - b1)) ;;
                   add_stl_constr (label ++ "_" ++ "alw" ++ str i) g (t + i)
                                  tree)
                (range_incl b1 b2) 0%nat [] m (List.length (children tr)))
      as (m' & e & E).
    + now rewrite range_incl_length.
    + intros i ma Hn. rewrite range_incl_nth in Hn by exact Hlen.
      inversion Hn; subst i. exists ma, IndexError.
      apply bind_raise, child_tree_missing; lia.
    + exists m', e. now apply bind_raise.
  - simpl; unfold _stl_always_eventually.
    destruct (collect_raises
                (fun (_ : nat) i =>
                   tree <- child_tree (Some tr) (Z.to_nat (i - b1)) ;;
                   add_stl_constr (label ++ "_" ++ "eve" ++ str i) g (t + i)
                                  tree)
                (range_incl b1 b2) 0%nat [] m (List.length (children tr)))
      as (m' & e & E).
    + now rewrite range_incl_length.
    + intros i ma Hn. rewrite range_incl_nth in Hn by exact Hlen.
      inversion Hn; subst i. exists ma, IndexError.
      apply bind_raise, child_tree_missing; lia.
    + exists m', e. now apply bind_raise.
Qed.

Lemma missing_children_raise_witness :
  exists m',
    add_stl_constr "spec" alw_not_x 0 (Some (RTree 7 None [None; None])) model0
    = (m', Raise IndexError).
Proof.
  apply (missing_children_raise "spec" alw_not_x 0 (RTree 7 None [None; None])
           model0).
  simpl; lia.
Defined.

(** ** The orchestrator *)

(** C9: with a specification whose encoding is [None], [build_and_solve]
    raises (AttributeError, on [fvar.setAttr]) and the model is left as the
    callback built it: no parameter is set and the solver is not run. *)
Theorem undefined_root_raises spec model_encode_f spec_obj tree
    outputflag numericfocus threads log_files m1 m2 :
  model_encode_f (Z.max 0 (horizon spec) + 1) (create_milp "rhc_system")
  = (m1, Ok tt) ->
  add_stl_constr "spec" spec 0 tree m1 = (m2, Ok None) ->
  build_and_solve (Some spec) model_encode_f spec_obj tree
                  outputflag numericfocus threads log_files
  = (m1, Raise AttributeError).
Proof.
  intros Hcb Henc.
  pose proof (none_adds_nothing _ _ _ _ _ _ Henc) as ->.
  unfold build_and_solve, build_and_solve_body.
  erewrite bind_ok by exact Hcb.
  unfold bind at 1. unfold bind at 1. now rewrite Henc.
Qed.

Lemma undefined_root_raises_witness :
  build_and_solve (Some next3_z) no_system 1 None None None (Some 4) true
  = (model0, Raise AttributeError).
Proof.
  apply (undefined_root_raises next3_z no_system 1 None None None (Some 4) true
           model0 model0); reflexivity.
Defined.

(** C10: [build_and_solve] encodes the specification with the label "spec"
    at base time 0, on the model the callback built, and has no argument
    through which another time could be chosen: its outcome is determined by
    the outcome of [add_stl_constr "spec" spec 0 tree]. *)
Theorem spec_encoded_at_time_zero spec model_encode_f spec_obj tree
    outputflag numericfocus threads log_files m1 m2 r :
  model_encode_f (Z.max 0 (horizon spec) + 1) (create_milp "rhc_system")
  = (m1, Ok tt) ->
  add_stl_constr "spec" spec 0 tree m1 = (m2, r) ->
  build_and_solve (Some spec) model_encode_f spec_obj tree
                  outputflag numericfocus threads log_files
  = match r with
    | Ok (Some (fvar, _)) =>
        (extend m2 (OSetObj fvar spec_obj ::
                    solver_calls outputflag numericfocus threads log_files),
         Ok tt)
    | Ok None => (m2, Raise AttributeError)
    | Raise e => (m2, Raise e)
    end.
Proof.
  intros Hcb Henc.
  unfold build_and_solve, build_and_solve_body.
  erewrite bind_ok by exact Hcb.
  unfold bind at 1. unfold bind at 1. rewrite Henc.
  destruct r as [[[fvar bds]|]|e]; try reflexivity.
  unfold set_obj, solver_calls, param_call, set_param, bind, call, ret,
    record, extend.
  destruct outputflag, numericfocus, threads, log_files; simpl;
    rewrite <- ?app_assoc; reflexivity.
Qed.

Lemma spec_encoded_at_time_zero_witness :
  build_and_solve (Some and_xy) no_system 1 None None None (Some 4) true
  = (extend (fst (add_stl_constr "spec" and_xy 0 None model0))
            (OSetObj "spec" 1 :: solver_calls None None (Some 4) true),
     Ok tt).
Proof.
  apply (spec_encoded_at_time_zero and_xy no_system 1 None None None (Some 4)
           true model0
           (fst (add_stl_constr "spec" and_xy 0 None model0))
           (Ok (Some ("spec", (-2, 3))))); reflexivity.
Defined.

(** * Further properties of the encoder *)

(** ** The returned variable *)

Lemma result_label f :
  forall label t tree m m' y b,
    add_stl_constr label f t tree m = (m', Ok (Some (y, b))) -> y = label.
Proof.
  assert (Hnode : forall label nd t tree k m m' y b,
    node_kind nd = Some k ->
    add_stl_constr label nd t tree m = (m', Ok (Some (y, b))) -> y = label).
  { intros label nd t tree k m m' y b Hk H.
    apply (node_run _ _ _ _ k) in H as (m1 & rs & _ & Hc); [|exact Hk].
    unfold combined in Hc. destruct (somes rs).
    - destruct Hc as [Hc _]; discriminate Hc.
    - destruct Hc as (lo & hi & _ & _ & Hc & _). now inversion Hc. }
  induction f as [s|g IHg IHh|args IH|args IH|w g IHg|g IHg|w g IHg]
    using Formula_encoder_ind; intros label t tree m m' y b H;
    try (eapply Hnode; [|exact H]; reflexivity).
  - simpl in H; unfold _stl_expr, bind, call, ret in H.
    destruct (signal s t); simpl in H; now inversion H.
  - destruct (not_cases g) as [[h ->] | Hg].
    + rewrite not_not_eq in H.
      apply bind_ok_inv in H as (? & ? & _ & H).
      apply bind_ok_inv in H as (? & ? & _ & H).
      eapply IHh; eauto.
    + rewrite not_plain_eq in H by exact Hg.
      apply bind_ok_inv in H as (? & ? & _ & H).
      apply bind_ok_inv in H as (? & res & _ & H).
      destruct res as [[vx bx]|]; unfold bind, call, ret in H; simpl in H;
        now inversion H.
  - simpl in H; unfold _stl_next in H. eapply IHg; eauto.
Qed.

(** The variable returned by the encoder is the one named by the label it
    was given, whatever the formula: a leaf, a Not and a min/max call create
    it under that name, and Next and a double negation pass the label on. *)
Theorem returned_variable_is_label label f t tree m m' r :
  add_stl_constr label f t tree m = (m', Ok r) ->
  r = None \/ exists b, r = Some (label, b).
Proof.
  intros H. destruct r as [[y b]|]; [right | now left].
  apply result_label in H as ->. now exists b.
Qed.

Lemma returned_variable_is_label_witness :
  Some ("spec", (-5, 1)) = None \/
  exists b, Some ("spec", (-5, 1)) = Some ("spec", b).
Proof.
  apply (returned_variable_is_label "spec" alw_not_x 0 (Some tree_alw_not_x)
           model0
           (fst (add_stl_constr "spec" alw_not_x 0 (Some tree_alw_not_x)
                                model0))
           (Some ("spec", (-5, 1)))).
  reflexivity.
Defined.

(** ** When the encoder returns None *)

Lemma child_runs_defined {A} (R : nat -> A -> Model -> Model -> Enc -> Prop)
    (d : A -> bool) l :
  (forall i a m m1 r, In a l -> R i a m m1 r ->
                      match r with
                      | Some _ => d a = true
                      | None => d a = false
                      end) ->
  forall i m m' rs,
    child_runs R i l m m' rs ->
    match somes rs with
    | [] => existsb d l = false
    | _ :: _ => existsb d l = true
    end.
Proof.
  induction l as [|a l IH]; intros HR i m m' rs H.
  - inversion H; subst. reflexivity.
  - inversion H as [|? ? ? ? m1 ? r rs0 Hr Hrs]; subst.
    assert (Hl : match somes rs0 with
                 | [] => existsb d l = false
                 | _ :: _ => existsb d l = true
                 end).
    { eapply IH; eauto. intros; eapply HR; eauto. now right. }
    assert (Ha := HR _ _ _ _ _ (or_introl eq_refl) Hr).
    destruct r as [xb|]; simpl; rewrite Ha; simpl; [reflexivity | exact Hl].
Qed.

Lemma result_defined f :
  forall label t tree m m' r,
    add_stl_constr label f t tree m = (m', Ok r) ->
    match r with
    | Some _ => defined f t = true
    | None => defined f t = false
    end.
Proof.
  assert (Hcomb : forall k label tree coll m1 m' r (b : bool),
    combined k label tree coll m1 m' r ->
    match coll with [] => b = false | _ :: _ => b = true end ->
    match r with Some _ => b = true | None => b = false end).
  { intros k label tree coll m1 m' r b Hc Hb. unfold combined in Hc.
    destruct coll.
    - destruct Hc as [-> _]; exact Hb.
    - destruct Hc as (lo & hi & _ & _ & -> & _); exact Hb. }
  induction f as [s|g IHg IHh|args IH|args IH|w g IHg|g IHg|w g IHg]
    using Formula_encoder_ind; intros label t tree m m' r H.
  - simpl in H; unfold _stl_expr, bind, call, ret in H. simpl.
    destruct (signal s t); simpl in H; inversion H; reflexivity.
  - destruct (not_cases g) as [[h ->] | Hg].
    + rewrite not_not_eq in H.
      apply bind_ok_inv in H as (? & ? & _ & H).
      apply bind_ok_inv in H as (? & ? & _ & H).
      apply (IHh h eq_refl) in H. exact H.
    + rewrite not_plain_eq in H by exact Hg.
      apply bind_ok_inv in H as (? & ? & _ & H).
      apply bind_ok_inv in H as (? & res & Hr & H).
      apply IHg in Hr. simpl.
      destruct res as [[vx bx]|]; unfold bind, call, ret in H; simpl in H;
        inversion H; subst; exact Hr.
  - apply (node_run _ _ _ _ Min) in H as (m1 & rs & Hrs & Hc); [|reflexivity].
    eapply Hcomb; [exact Hc|]. simpl.
    eapply child_runs_defined; [|exact Hrs].
    intros i a ma mb r0 Hin (sub & _ & Hr).
    rewrite Forall_forall in IH. eapply IH; eauto.
  - apply (node_run _ _ _ _ Max) in H as (m1 & rs & Hrs & Hc); [|reflexivity].
    eapply Hcomb; [exact Hc|]. simpl.
    eapply child_runs_defined; [|exact Hrs].
    intros i a ma mb r0 Hin (sub & _ & Hr).
    rewrite Forall_forall in IH. eapply IH; eauto.
  - apply (node_run _ _ _ _ Min) in H as (m1 & rs & Hrs & Hc); [|reflexivity].
    eapply Hcomb; [exact Hc|]. simpl.
    eapply (child_runs_defined _ (fun i => defined g (t + i))); [|exact Hrs].
    intros i a ma mb r0 Hin (sub & _ & Hr). eapply IHg; eauto.
  - simpl in H; unfold _stl_next in H. simpl. eapply IHg; eauto.
  - apply (node_run _ _ _ _ Max) in H as (m1 & rs & Hrs & Hc); [|reflexivity].
    eapply Hcomb; [exact Hc|]. simpl.
    eapply (child_runs_defined _ (fun i => defined g (t + i))); [|exact Hrs].
    intros i a ma mb r0 Hin (sub & _ & Hr). eapply IHg; eauto.
Qed.

(** Unless it raises, the encoder returns None exactly when no leaf it
    reaches has a signal at the time it is reached: one defined leaf under
    an And, Or, Always or Eventually is enough for a variable. *)
Theorem none_iff_no_signal label f t tree m m' r :
  add_stl_constr label f t tree m = (m', Ok r) ->
  (r = None <-> defined f t = false).
Proof.
  intros H. apply result_defined in H.
  destruct r as [xb|]; split; intros E;
    [discriminate E | rewrite H in E; discriminate E | exact H | reflexivity].
Qed.

Lemma none_iff_no_signal_witness :
  (@None (VarH * Bounds) = None <-> defined next3_z 0 = false).
Proof.
  apply (none_iff_no_signal "spec" next3_z 0 None model0 model0 None).
  reflexivity.
Defined.

(** ** Bounds of a negation *)

(** A Not node returns the bounds of its child as they are, neither negated
    nor swapped: encoded at the same time, [Not g] and [g] return the same
    pair (and are None together). *)
Theorem negation_keeps_bounds g :
  forall l1 l2 t tr1 tr2 m1 m2 m1' m2' r1 r2,
    add_stl_constr l1 (Not g) t tr1 m1 = (m1', Ok r1) ->
    add_stl_constr l2 g t tr2 m2 = (m2', Ok r2) ->
    option_map snd r1 = option_map snd r2.
Proof.
  induction g as [s|h IHh|args _|args _|w h _|h _|w h _]
    using Formula_nested_ind;
    intros l1 l2 t tr1 tr2 m1 m2 m1' m2' r1 r2 H1 H2.
  2: { rewrite not_not_eq in H1.
       apply bind_ok_inv in H1 as (? & ? & _ & H1).
       apply bind_ok_inv in H1 as (? & ? & _ & H1).
       symmetry. eapply IHh; eauto. }
  all: rewrite not_plain_eq in H1 by (intros h' E; discriminate E);
       apply bind_ok_inv in H1 as (? & ? & _ & H1);
       apply bind_ok_inv in H1 as (? & res & Hr & H1);
       pose proof (encoder_bounds_indep _ _ _ _ _ _ _ _ _ _ _ _ Hr H2) as E;
       destruct res as [[vx bx]|]; unfold bind, call, ret in H1; simpl in H1;
       inversion H1; subst; exact E.
Qed.

Lemma negation_keeps_bounds_witness :
  option_map snd (Some ("a", (-5, 1))) = option_map snd (Some ("b", (-5, 1))).
Proof.
  apply (negation_keeps_bounds (Expr sig_x) "a" "b" 0 None None model0 model0
           (fst (add_stl_constr "a" (Not (Expr sig_x)) 0 None model0))
           (fst (add_stl_constr "b" (Expr sig_x) 0 None model0))
           (Some ("a", (-5, 1))) (Some ("b", (-5, 1)))); reflexivity.
Defined.

(** ** Degenerate windows and argument lists *)

Lemma range_incl_single a : range_incl a a = [a].
Proof.
  unfold range_incl. replace (a + 1 - a) with 1 by lia. simpl.
  f_equal; lia.
Qed.

Lemma range_incl_empty a b : b < a -> range_incl a b = [].
Proof.
  intros H; unfold range_incl.
  replace (Z.to_nat (b + 1 - a)) with 0%nat by lia. reflexivity.
Qed.

(** A window [[a, a]] of a single offset still goes through the min/max
    encoder: the child is encoded once, at time [t + a], with the first child
    of the tree, and its variable is the only argument of the call; the node
    returns the child's bounds, and [K] is their larger absolute value.  When
    the child is None so is the node. *)
Theorem single_offset_window label a g t tree m m' r :
  (add_stl_constr label (Always (a, a) g) t tree m = (m', Ok r) <->
   exists sub m1 r1,
     subtree_at tree 0 sub /\
     add_stl_constr (label ++ "_alw" ++ str a) g (t + a) sub m = (m1, Ok r1) /\
     match r1 with
     | Some (x, b) =>
         r = Some (label, b) /\
         m' = record m1 (OMinMax Min label [x] (max_abs b) false
                                 (start_of tree) (index_of tree))
     | None => r = None /\ m' = m1
     end) /\
  (add_stl_constr label (Eventually (a, a) g) t tree m = (m', Ok r) <->
   exists sub m1 r1,
     subtree_at tree 0 sub /\
     add_stl_constr (label ++ "_eve" ++ str a) g (t + a) sub m = (m1, Ok r1) /\
     match r1 with
     | Some (x, b) =>
         r = Some (label, b) /\
         m' = record m1 (OMinMax Max label [x] (max_abs b) false
                                 (start_of tree) (index_of tree))
     | None => r = None /\ m' = m1
     end).
Proof.
  split; simpl add_stl_constr; unfold _stl_always_eventually;
    rewrite range_incl_single; simpl collect;
    replace (Z.to_nat (a - a)) with 0%nat by lia; simpl String.eqb.
  all: split.
  all: try (intros H;
            apply bind_ok_inv in H as (m1 & coll & H & Hc);
            apply bind_ok_inv in H as (m2 & r1 & H & Hret);
            apply bind_ok_inv in H as (m3 & sub & Hsub & H);
            apply child_tree_ok in Hsub as [-> Hsub];
            inversion Hret; subst; clear Hret;
            exists sub, m1, r1; split; [exact Hsub|]; split; [exact H|];
            destruct r1 as [[x [lo hi]]|]; simpl in Hc;
            unfold add_minmax, bind, call, ret in Hc; simpl in Hc;
            inversion Hc; subst; split; reflexivity).
  all: intros (sub & m1 & r1 & Hsub & H & Hr);
       erewrite bind_ok;
       [|erewrite bind_ok;
         [reflexivity
         |erewrite bind_ok; [exact H | apply child_tree_ok; auto]]];
       destruct r1 as [[x [lo hi]]|]; destruct Hr as [-> ->]; reflexivity.
Qed.

(** An And or Or without arguments, and an Always or Eventually whose window
    is empty ([b < a]), return None and leave the model as it is; the tree,
    whatever its shape, is not looked at. *)
Theorem nothing_to_combine label a b g t tree m :
  b < a ->
  add_stl_constr label (And []) t tree m = (m, Ok None) /\
  add_stl_constr label (Or []) t tree m = (m, Ok None) /\
  add_stl_constr label (Always (a, b) g) t tree m = (m, Ok None) /\
  add_stl_constr label (Eventually (a, b) g) t tree m = (m, Ok None).
Proof.
  intros Hab. split; [reflexivity|]. split; [reflexivity|].
  split; simpl; unfold _stl_always_eventually;
    rewrite (range_incl_empty a b Hab); reflexivity.
Qed.

Lemma nothing_to_combine_witness :
  add_stl_constr "spec" (And []) 0 (Some tree_alw_not_x) model0
  = (model0, Ok None) /\
  add_stl_constr "spec" (Or []) 0 (Some tree_alw_not_x) model0
  = (model0, Ok None) /\
  add_stl_constr "spec" (Always (3, 1) (Expr sig_x)) 0 (Some tree_alw_not_x)
                 model0 = (model0, Ok None) /\
  add_stl_constr "spec" (Eventually (3, 1) (Expr sig_x)) 0
                 (Some tree_alw_not_x) model0 = (model0, Ok None).
Proof.
  apply (nothing_to_combine "spec" 3 1 (Expr sig_x) 0 (Some tree_alw_not_x)
           model0).
  lia.
Defined.

(** ** Exceptions *)



(** ** Children of the tree that are never read *)

Lemma collect_ext {A} (body1 body2 : nat -> A -> M Enc) l :
  forall i acc m,
    (forall k a ma, nth_error l k = Some a ->
                    body1 (i + k)%nat a ma = body2 (i + k)%nat a ma) ->
    collect body1 i l acc m = collect body2 i l acc m.
Proof.
  induction l as [|a l IH]; intros i acc m Hb; simpl; [reflexivity|].
  unfold bind. pose proof (Hb 0%nat a m eq_refl) as E0.
  rewrite Nat.add_0_r in E0. rewrite <- E0.
  destruct (body1 i a m) as [m1 [r|e]]; [|reflexivity].
  apply IH. intros k a' ma Hn.
  rewrite Nat.add_succ_l, <- Nat.add_succ_r. apply Hb; exact Hn.
Qed.

Lemma child_tree_app rb idx cs extra k m :
  (k < List.length cs)%nat ->
  child_tree (Some (RTree rb idx (cs ++ extra))) k m
  = child_tree (Some (RTree rb idx cs)) k m.
Proof.
  intros Hk; simpl; unfold getitem. now rewrite nth_error_app1.
Qed.

(** A node of the tree may have more children than the formula node looks
    up: for every node but Next (which hands its own tree node down), the
    children beyond those needed are never read, and the outcome is the one
    for the node without them. *)
Theorem surplus_children_ignored label f t rb idx cs extra m :
  (forall g, f <> Next g) ->
  (children_needed f <= List.length cs)%nat ->
  add_stl_constr label f t (Some (RTree rb idx (cs ++ extra))) m
  = add_stl_constr label f t (Some (RTree rb idx cs)) m.
Proof.
  intros Hnext Hlen.
  assert (Hloop : forall (A : Type) (b1 b2 : nat -> A -> M Enc) l k,
    (forall i a ma, nth_error l i = Some a -> b1 i a ma = b2 i a ma) ->
    (coll <- collect b1 0%nat l [] ;;
     combine k label (Some (RTree rb idx (cs ++ extra))) coll) m
    = (coll <- collect b2 0%nat l [] ;;
       combine k label (Some (RTree rb idx cs)) coll) m).
  { intros A b1 b2 l k Hb. unfold bind.
    rewrite (collect_ext b1 b2 l 0%nat [] m) by exact Hb.
    destruct (collect b2 0%nat l [] m) as [m1 [coll|e]]; reflexivity. }
  destruct f as [s|g|args|args|[b1 b2] g|g|[b1 b2] g]; simpl in Hlen.
  - reflexivity.
  - destruct cs as [|c cs]; [simpl in Hlen; lia | reflexivity].
  - simpl; unfold _stl_and_or. apply Hloop. intros i a ma Hn.
    unfold bind. rewrite child_tree_app; [reflexivity|].
    assert (i < List.length args)%nat by (apply nth_error_Some; congruence).
    lia.
  - simpl; unfold _stl_and_or. apply Hloop. intros i a ma Hn.
    unfold bind. rewrite child_tree_app; [reflexivity|].
    assert (i < List.length args)%nat by (apply nth_error_Some; congruence).
    lia.
  - simpl; unfold _stl_always_eventually. apply Hloop. intros k i ma Hn.
    assert (Hk : (k < Z.to_nat (b2 + 1 - b1))%nat).
    { rewrite <- range_incl_length. apply nth_error_Some. congruence. }
    rewrite range_incl_nth in Hn by exact Hk. inversion Hn; subst i.
    unfold bind, getitem. rewrite nth_error_app1 by lia. reflexivity.
  - now destruct (Hnext g).
  - simpl; unfold _stl_always_eventually. apply Hloop. intros k i ma Hn.
    assert (Hk : (k < Z.to_nat (b2 + 1 - b1))%nat).
    { rewrite <- range_incl_length. apply nth_error_Some. congruence. }
    rewrite range_incl_nth in Hn by exact Hk. inversion Hn; subst i.
    unfold bind, getitem. rewrite nth_error_app1 by lia. reflexivity.
Qed.

Lemma surplus_children_ignored_witness :
  add_stl_constr "spec" and_xy 0
    (Some (RTree 4 (Some 0) ([None; Some (RTree 2 None [])]
                             ++ [Some (RTree 9 None []); None]))) model0
  = add_stl_constr "spec" and_xy 0
      (Some (RTree 4 (Some 0) [None; Some (RTree 2 None [])])) model0.
Proof.
  apply (surplus_children_ignored "spec" and_xy 0 4 (Some 0)
           [None; Some (RTree 2 None [])] [Some (RTree 9 None []); None]
           model0).
  - intros g E; discriminate E.
  - simpl; lia.
Defined.

(** ** Names of the variables *)

Lemma string_app_assoc (a b c : string) : ((a ++ b) ++ c = a ++ (b ++ c))%string.
Proof. induction a as [|x a IH]; simpl; [reflexivity | now rewrite IH]. Qed.

Lemma string_app_inv_head (a b c : string) :
  (a ++ b = a ++ c)%string -> b = c.
Proof.
  induction a as [|x a IH]; simpl; intros H; [exact H|].
  inversion H; auto.
Qed.

Lemma string_app_nil_r (a : string) : (a ++ "")%string = a.
Proof. induction a as [|x a IH]; simpl; [reflexivity | now rewrite IH]. Qed.

Lemma string_app_not_self (a : string) c s : (a ++ String c s)%string <> a.
Proof.
  intros H. rewrite <- (string_app_nil_r a) in H at 2.
  apply string_app_inv_head in H. discriminate H.
Qed.

(** Two names split at their first underscore in the same way. *)
Lemma no_underscore_split u :
  forall v s s',
    no_underscore u -> no_underscore v ->
    path_suffix s -> path_suffix s' ->
    (u ++ s = v ++ s')%string -> u = v.
Proof.
  induction u as [|c u IH]; intros v s s' Hu Hv Hs Hs' E.
  - destruct v as [|d v]; [reflexivity|]. simpl in E, Hv.
    destruct Hs as [-> | [s0 ->]]; [discriminate E|].
    inversion E; subst. now destruct Hv as [Hd _].
  - destruct v as [|d v]; simpl in E, Hu.
    + destruct Hs' as [-> | [s0 ->]]; [discriminate E|].
      inversion E; subst. now destruct Hu as [Hc _].
    + inversion E as [[Ec Eu]]; subst. f_equal.
      destruct Hu as [_ Hu]. destruct Hv as [_ Hv].
      exact (IH v s s' Hu Hv Hs Hs' Eu).
Qed.

Lemma string_of_uint_no_underscore d :
  no_underscore (NilEmpty.string_of_uint d).
Proof.
  induction d; simpl; try split; try assumption; try exact I;
    intros E; discriminate E.
Qed.

Lemma str_no_underscore i : no_underscore (str i).
Proof.
  unfold str.
  assert (Hu : forall d, no_underscore (NilZero.string_of_uint d)).
  { intros d; destruct d; try apply string_of_uint_no_underscore.
    simpl; split; [intros E; discriminate E | exact I]. }
  destruct (Z.to_int i); simpl; [apply Hu|].
  split; [intros E; discriminate E | apply Hu].
Qed.

Lemma to_int_not_nil i :
  Z.to_int i <> Decimal.Pos Decimal.Nil /\ Z.to_int i <> Decimal.Neg Decimal.Nil.
Proof.
  destruct i; simpl; split; intros E; try discriminate E;
    inversion E as [E']; now apply DecimalPos.Unsigned.to_uint_nonnil in E'.
Qed.

(** [str] is injective: different integers are written differently. *)
Lemma str_inj i j : str i = str j -> i = j.
Proof.
  unfold str; intros E.
  apply DecimalZ.to_int_inj.
  destruct (to_int_not_nil i) as [Hi1 Hi2], (to_int_not_nil j) as [Hj1 Hj2].
  pose proof (NilZero.isi _ Hi1 Hi2) as Ei.
  pose proof (NilZero.isi _ Hj1 Hj2) as Ej.
  rewrite E in Ei. rewrite Ei in Ej. now inversion Ej.
Qed.

Lemma under_refl label : under label label.
Proof. exists ""%string; split; [now rewrite string_app_nil_r | now left]. Qed.

(** A name under a child's label lies under the parent's label and is not the
    parent's label. *)
Lemma under_child label tok y :
  under (label ++ String "_"%char tok) y -> under label y /\ y <> label.
Proof.
  intros (s & -> & _). rewrite string_app_assoc. simpl. split.
  - exists (String "_"%char (tok ++ s)); split; [reflexivity | right; eauto].
  - apply string_app_not_self.
Qed.

(** Children whose labels end in different numbers have no name in common. *)
Lemma separated_children label op i j :
  i <> j ->
  separated (label ++ "_" ++ op ++ str i) (label ++ "_" ++ op ++ str j).
Proof.
  intros Hij y (s & -> & Hs) (s' & E & Hs').
  rewrite !string_app_assoc in E.
  do 3 apply string_app_inv_head in E.
  apply Hij, str_inj.
  exact (no_underscore_split _ _ _ _ (str_no_underscore i)
           (str_no_underscore j) Hs Hs' E).
Qed.

Lemma extend_extend m o1 o2 : extend (extend m o1) o2 = extend m (o1 ++ o2)%list.
Proof. unfold extend; simpl. now rewrite app_assoc. Qed.

Lemma emits_ret {A} (P : list Op -> Prop) (a : A) : P [] -> emits P (ret a).
Proof.
  intros HP m m' r H; inversion H; subst.
  exists []; split; [now rewrite extend_nil | exact HP].
Qed.

Lemma emits_call (P : list Op -> Prop) o : P [o] -> emits P (call o).
Proof.
  intros HP m m' r H; inversion H; subst. exists [o]; split; [reflexivity|auto].
Qed.

Lemma emits_child_tree (P : list Op -> Prop) tree i :
  P [] -> emits P (child_tree tree i).
Proof.
  intros HP m m' r H. apply child_tree_model in H as ->.
  exists []; split; [now rewrite extend_nil | exact HP].
Qed.

Lemma emits_bind {A B} (P Q R : list Op -> Prop) (c : M A) (k : A -> M B) :
  emits P c ->
  (forall a, emits Q (k a)) ->
  (forall o1, P o1 -> R o1) ->
  (forall o1 o2, P o1 -> Q o2 -> R (o1 ++ o2)%list) ->
  emits R (bind c k).
Proof.
  intros Hc Hk HPR HPQR m m' r H. unfold bind in H.
  destruct (c m) as [m1 [a|e]] eqn:E.
  - destruct (Hc _ _ _ E) as (o1 & -> & HP).
    destruct (Hk a _ _ _ H) as (o2 & -> & HQ).
    exists (o1 ++ o2)%list; split; [apply extend_extend | auto].
  - inversion H; subst. destruct (Hc _ _ _ E) as (o1 & -> & HP).
    exists o1; auto.
Qed.

Lemma emits_weaken {A} (P Q : list Op -> Prop) (c : M A) :
  emits P c -> (forall o, P o -> Q o) -> emits Q c.
Proof.
  intros Hc HPQ m m' r H. destruct (Hc _ _ _ H) as (o & -> & HP). eauto.
Qed.

Lemma somes_app {A} (l1 l2 : list (option A)) :
  somes (l1 ++ l2)%list = (somes l1 ++ somes l2)%list.
Proof.
  induction l1 as [|[a|] l1 IH]; simpl; [reflexivity | now rewrite IH | exact IH].
Qed.

Lemma created_app o1 o2 : created (o1 ++ o2)%list = (created o1 ++ created o2)%list.
Proof. unfold created. now rewrite map_app, somes_app. Qed.

Lemma created_named (P : VarH -> Prop) ops y :
  Forall (fun o => exists y, call_target o = Some y /\ P y) ops ->
  In y (created ops) -> P y.
Proof.
  induction ops as [|o ops IH]; intros Hall Hin; [contradiction|].
  inversion Hall as [|? ? (z & Hz & HP) Hall']; subst.
  unfold created in Hin; simpl in Hin.
  destruct (creates o) as [z'|] eqn:Ec.
  - destruct Hin as [<- | Hin]; [|apply IH; assumption].
    destruct o; simpl in Ec, Hz; try discriminate Ec; congruence.
  - apply IH; assumption.
Qed.

Lemma well_named_nil (P : VarH -> Prop) : well_named P [].
Proof. split; constructor. Qed.

Lemma well_named_weaken (P Q : VarH -> Prop) ops :
  (forall y, P y -> Q y) -> well_named P ops -> well_named Q ops.
Proof.
  intros HPQ [Hall Hnd]; split; [|exact Hnd].
  eapply Forall_impl; [|exact Hall]. intros o (y & Hy & HP); eauto.
Qed.

Lemma well_named_app (P Q R : VarH -> Prop) o1 o2 :
  (forall y, P y -> Q y -> False) ->
  (forall y, P y -> R y) -> (forall y, Q y -> R y) ->
  well_named P o1 -> well_named Q o2 -> well_named R (o1 ++ o2)%list.
Proof.
  intros Hdis HPR HQR [Ha1 Hn1] [Ha2 Hn2]; split.
  - apply Forall_app; split;
      [eapply Forall_impl; [|exact Ha1] | eapply Forall_impl; [|exact Ha2]];
      intros o (y & Hy & Hp); eauto.
  - rewrite created_app. apply NoDup_app; [exact Hn1 | exact Hn2 |].
    intros y H1 H2. apply (Hdis y); eapply created_named; eauto.
Qed.

(** The three calls that introduce the variable of a leaf or of a Not. *)
Lemma well_named_own label lb ub r (c : Op) :
  call_target c = Some label -> creates c = None ->
  well_named (eq label) [OAddVar label lb ub; OSetStart label r; c].
Proof.
  intros Hc Hn; split.
  - repeat constructor; simpl; eauto.
  - unfold created; simpl. rewrite Hn. repeat constructor. intros [].
Qed.

Lemma emits_after_lookup {A} (R : list Op -> Prop) tree i
    (k : option RobustnessTree -> M A) :
  R [] -> (forall sub, emits R (k sub)) ->
  emits R (sub <- child_tree tree i ;; k sub).
Proof.
  intros HR Hk.
  apply (emits_bind (fun o => o = []) R R); auto.
  - apply emits_child_tree; reflexivity.
  - intros o1 ->; exact HR.
  - intros o1 o2 -> H; exact H.
Qed.

Lemma emits_collect {A} (lbl : nat -> A -> string)
    (body : nat -> A -> M Enc) l :
  forall i acc,
    (forall k a, nth_error l k = Some a ->
       emits (well_named (under (lbl (i + k)%nat a))) (body (i + k)%nat a)) ->
    (forall k1 k2 a1 a2,
       nth_error l k1 = Some a1 -> nth_error l k2 = Some a2 -> k1 <> k2 ->
       separated (lbl (i + k1)%nat a1) (lbl (i + k2)%nat a2)) ->
    emits (well_named (fun y => exists k a,
                          nth_error l k = Some a /\
                          under (lbl (i + k)%nat a) y))
          (collect body i l acc).
Proof.
  induction l as [|a l IH]; intros i acc Hb Hsep.
  - apply emits_ret, well_named_nil.
  - simpl collect.
    apply (emits_bind
             (well_named (under (lbl i a)))
             (well_named (fun y => exists k a',
                             nth_error l k = Some a' /\
                             under (lbl (S i + k)%nat a') y))).
    + specialize (Hb 0%nat a eq_refl). now rewrite Nat.add_0_r in Hb.
    + intros r. apply IH.
      * intros k a' Hn. rewrite Nat.add_succ_l, <- Nat.add_succ_r.
        apply Hb; exact Hn.
      * intros k1 k2 a1 a2 H1 H2 Hne.
        rewrite !Nat.add_succ_l, <- !Nat.add_succ_r.
        apply Hsep; [exact H1 | exact H2 | lia].
    + intros o1. apply well_named_weaken. intros y Hy.
      exists 0%nat, a; split; [reflexivity | now rewrite Nat.add_0_r].
    + intros o1 o2. apply well_named_app.
      * intros y Hy (k & a' & Hn & Hy').
        assert (Hne : 0%nat <> S k) by lia.
        apply (Hsep 0%nat (S k) a a' eq_refl Hn Hne y).
        -- now rewrite Nat.add_0_r.
        -- now rewrite Nat.add_succ_r, <- Nat.add_succ_l.
      * intros y Hy.
        exists 0%nat, a; split; [reflexivity | now rewrite Nat.add_0_r].
      * intros y (k & a' & Hn & Hy).
        exists (S k), a'; split; [exact Hn|].
        now rewrite Nat.add_succ_r, <- Nat.add_succ_l.
Qed.

Lemma emits_combine k label tree coll :
  emits (well_named (eq label)) (combine k label tree coll).
Proof.
  intros m m' r H. unfold combine, add_minmax, bind, call, ret in H.
  destruct coll as [|xb coll]; simpl in H; inversion H; subst.
  - exists []; split; [now rewrite extend_nil | apply well_named_nil].
  - eexists [_]; split; [reflexivity|]. split.
    + repeat constructor; simpl; eauto.
    + unfold created; simpl. repeat constructor. intros [].
Qed.

(** The loop of a combining node followed by the min/max call. *)
Lemma emits_node {A} (tok : nat -> A -> string) (body : nat -> A -> M Enc)
    l k label tree :
  (forall i a, nth_error l i = Some a ->
     emits (well_named (under (label ++ String "_"%char (tok i a))))
           (body i a)) ->
  (forall k1 k2 a1 a2,
     nth_error l k1 = Some a1 -> nth_error l k2 = Some a2 -> k1 <> k2 ->
     separated (label ++ String "_"%char (tok k1 a1))
               (label ++ String "_"%char (tok k2 a2))) ->
  emits (well_named (under label))
        (coll <- collect body 0%nat l [] ;; combine k label tree coll).
Proof.
  intros Hb Hsep.
  apply (emits_bind
           (well_named (fun y => exists i a,
                           nth_error l i = Some a /\
                           under (label ++ String "_"%char (tok (0 + i)%nat a))
                                 y))
           (well_named (eq label))).
  - apply (emits_collect (fun i a => label ++ String "_"%char (tok i a))).
    + intros i a Hn. simpl. apply Hb; exact Hn.
    + intros k1 k2 a1 a2 H1 H2 Hne. simpl. apply Hsep; assumption.
  - intros coll. apply emits_combine.
  - intros o1. apply well_named_weaken.
    intros y (i & a & _ & Hy). now apply under_child in Hy.
  - intros o1 o2. apply well_named_app.
    + intros y (i & a & _ & Hy) <-. now apply under_child in Hy.
    + intros y (i & a & _ & Hy). now apply under_child in Hy.
    + intros y <-. apply under_refl.
Qed.

Lemma emits_own_variable label lb ub r (c : Op) (res : Enc) :
  call_target c = Some label -> creates c = None ->
  emits (well_named (eq label))
        (call (OAddVar label lb ub) ;;; call (OSetStart label r) ;;;
         call c ;;; ret res).
Proof.
  intros Hc Hn m m' r0 H. unfold bind, call, ret in H; simpl in H.
  inversion H; subst.
  exists [OAddVar label lb ub; OSetStart label r; c]; split.
  - unfold record, extend; simpl. now rewrite <- !app_assoc.
  - now apply well_named_own.
Qed.

(** The encoder only extends the model, by calls that create or constrain
    variables named under its label, and it creates no name twice. *)
Lemma encoder_well_named f :
  forall label t tree,
    emits (well_named (under label)) (add_stl_constr label f t tree).
Proof.
  induction f as [s|g IHg IHh|args IH|args IH|w g IHg|g IHg|w g IHg]
    using Formula_encoder_ind; intros label t tree.
  - simpl; unfold _stl_expr. destruct (signal s t) as [e|].
    + eapply emits_weaken; [apply emits_own_variable; reflexivity|].
      intros o. apply well_named_weaken. intros y <-; apply under_refl.
    + apply emits_ret, well_named_nil.
  - destruct (not_cases g) as [[h ->] | Hg].
    + rewrite not_not_eq.
      apply emits_after_lookup; [apply well_named_nil|]. intros sub.
      apply emits_after_lookup; [apply well_named_nil|]. intros sub'.
      apply (IHh h eq_refl).
    + rewrite not_plain_eq by exact Hg.
      apply emits_after_lookup; [apply well_named_nil|]. intros sub.
      apply (emits_bind (well_named (under (label ++ "_not")))
                        (well_named (eq label))).
      * apply IHg.
      * intros [[x b]|];
          [apply emits_own_variable; reflexivity
          | apply emits_ret, well_named_nil].
      * intros o1. apply well_named_weaken.
        intros y Hy. now apply (under_child label "not") in Hy.
      * intros o1 o2. apply well_named_app.
        -- intros y Hy <-. now apply (under_child label "not") in Hy.
        -- intros y Hy. now apply (under_child label "not") in Hy.
        -- intros y <-. apply under_refl.
  - simpl; unfold _stl_and_or.
    apply (emits_node (fun i _ => "and" ++ str (Z.of_nat i))).
    + intros i a Hn. apply emits_after_lookup; [apply well_named_nil|].
      intros sub. rewrite Forall_forall in IH.
      apply (IH a (nth_error_In _ _ Hn)).
    + intros k1 k2 a1 a2 _ _ Hne.
      apply (separated_children label "and"). lia.
  - simpl; unfold _stl_and_or.
    apply (emits_node (fun i _ => "or" ++ str (Z.of_nat i))).
    + intros i a Hn. apply emits_after_lookup; [apply well_named_nil|].
      intros sub. rewrite Forall_forall in IH.
      apply (IH a (nth_error_In _ _ Hn)).
    + intros k1 k2 a1 a2 _ _ Hne.
      apply (separated_children label "or"). lia.
  - destruct w as [b1 b2]; simpl; unfold _stl_always_eventually.
    apply (emits_node (fun _ i => "alw" ++ str i)).
    + intros k i Hn. apply emits_after_lookup; [apply well_named_nil|].
      intros sub. apply IHg.
    + intros k1 k2 a1 a2 H1 H2 Hne.
      apply (separated_children label "alw").
      assert (Hk1 : (k1 < Z.to_nat (b2 + 1 - b1))%nat)
        by (rewrite <- range_incl_length; apply nth_error_Some; congruence).
      assert (Hk2 : (k2 < Z.to_nat (b2 + 1 - b1))%nat)
        by (rewrite <- range_incl_length; apply nth_error_Some; congruence).
      rewrite range_incl_nth in H1, H2 by assumption.
      inversion H1; inversion H2; lia.
  - simpl; unfold _stl_next. apply IHg.
  - destruct w as [b1 b2]; simpl; unfold _stl_always_eventually.
    apply (emits_node (fun _ i => "eve" ++ str i)).
    + intros k i Hn. apply emits_after_lookup; [apply well_named_nil|].
      intros sub. apply IHg.
    + intros k1 k2 a1 a2 H1 H2 Hne.
      apply (separated_children label "eve").
      assert (Hk1 : (k1 < Z.to_nat (b2 + 1 - b1))%nat)
        by (rewrite <- range_incl_length; apply nth_error_Some; congruence).
      assert (Hk2 : (k2 < Z.to_nat (b2 + 1 - b1))%nat)
        by (rewrite <- range_incl_length; apply nth_error_Some; congruence).
      rewrite range_incl_nth in H1, H2 by assumption.
      inversion H1; inversion H2; lia.
Qed.

(** The encoder never removes or changes a call already made on the model,
    and makes none of the orchestrator's calls (objective, parameters,
    update, write, optimize): whatever the outcome, exception included, the
    model is extended by calls that create or constrain variables whose
    names are the label followed by nothing or by a suffix that starts with
    an underscore. *)
Theorem encoder_extends_under_label label f t tree m :
  exists ops r,
    add_stl_constr label f t tree m = (extend m ops, r) /\
    Forall (fun o => exists y, call_target o = Some y /\ under label y) ops.
Proof.
  destruct (add_stl_constr label f t tree m) as [m' r] eqn:E.
  destruct (encoder_well_named f label t tree m m' r E) as (ops & -> & H & _).
  exists ops, r; auto.
Qed.

(** No variable name is created twice by one call of the encoder: the
    variables of different nodes of the formula, and of the same node at
    different offsets of a window, get different names. *)
Theorem created_names_distinct label f t tree m :
  exists ops r,
    add_stl_constr label f t tree m = (extend m ops, r) /\
    NoDup (created ops).
Proof.
  destruct (add_stl_constr label f t tree m) as [m' r] eqn:E.
  destruct (encoder_well_named f label t tree m m' r E) as (ops & -> & _ & H).
  exists ops, r; auto.
Qed.

(** ** The big-M constant *)

Lemma child_runs_forall {A} (R : nat -> A -> Model -> Model -> Enc -> Prop)
    (Q : VarH * Bounds -> Prop) l :
  (forall i a m m1 xb, In a l -> R i a m m1 (Some xb) -> Q xb) ->
  forall i m m' rs, child_runs R i l m m' rs -> Forall Q (somes rs).
Proof.
  induction l as [|a l IH]; intros HR i m m' rs H.
  - inversion H; subst; constructor.
  - inversion H as [|? ? ? ? m1 ? r rs0 Hr Hrs]; subst.
    assert (Hl : Forall Q (somes rs0))
      by (eapply IH; eauto; intros; eapply HR; eauto; now right).
    destruct r as [xb|]; simpl; [|exact Hl].
    constructor; [|exact Hl]. eapply HR; eauto. now left.
Qed.

Lemma leaves_dominant_args args :
  leaves_dominant (And args) -> Forall leaves_dominant args.
Proof.
  simpl. induction args as [|a args IH]; intros H; constructor.
  - apply H.
  - apply IH, H.
Qed.

Lemma combined_dominant k label tree coll m1 m' y lo hi :
  combined k label tree coll m1 m' (Some (y, (lo, hi))) ->
  Forall (fun xb => - snd (snd xb) <= fst (snd xb) <= snd (snd xb)) coll ->
  - hi <= lo <= hi /\
  Forall (fun xb => max_abs (snd xb) <= max_abs (lo, hi)) coll.
Proof.
  unfold combined; intros Hc Hall. destruct coll as [|c coll].
  - destruct Hc as [Hc _]; discriminate Hc.
  - destruct Hc as (lo' & hi' & [Hlo Alo] & [Hhi Ahi] & Hr & _).
    inversion Hr; subst lo' hi'; clear Hr.
    rewrite Forall_forall in Hall, Alo, Ahi.
    apply in_map_iff in Hlo as (bl & El & Hl).
    apply in_map_iff in Hl as (xl & El' & Hl). subst bl.
    apply in_map_iff in Hhi as (bh & Eh & Hh).
    apply in_map_iff in Hh as (xh & Eh' & Hh). subst bh.
    pose proof (Hall _ Hl) as Il. pose proof (Hall _ Hh) as Ih.
    assert (Hlh : fst (snd xh) <= lo)
      by (apply Alo, in_map, in_map; exact Hh).
    assert (Hhl : snd (snd xl) <= hi)
      by (apply Ahi, in_map, in_map; exact Hl).
    unfold Bounds, VarH in *.
    split; [lia|].
    apply Forall_forall; intros xb Hxb.
    pose proof (Hall _ Hxb) as Ib.
    assert (snd (snd xb) <= hi) by (apply Ahi, in_map, in_map; exact Hxb).
    unfold max_abs; simpl. lia.
Qed.

(** With dominant leaves every returned pair [(lo, hi)] has [-hi <= lo <= hi]. *)
Lemma dominant_bounds f :
  leaves_dominant f ->
  forall label t tree m m' y lo hi,
    add_stl_constr label f t tree m = (m', Ok (Some (y, (lo, hi)))) ->
    - hi <= lo <= hi.
Proof.
  assert (Hnode : forall nd k label t tree m m' y lo hi,
    node_kind nd = Some k ->
    (forall m m1 rs, node_children_runs label nd t tree m m1 rs ->
       Forall (fun xb => - snd (snd xb) <= fst (snd xb) <= snd (snd xb))
              (somes rs)) ->
    add_stl_constr label nd t tree m = (m', Ok (Some (y, (lo, hi)))) ->
    - hi <= lo <= hi).
  { intros nd k label t tree m m' y lo hi Hk Hch H.
    apply (node_run _ _ _ _ k) in H as (m1 & rs & Hrs & Hc); [|exact Hk].
    eapply combined_dominant; [exact Hc | eapply Hch; exact Hrs]. }
  induction f as [s|g IHg IHh|args IH|args IH|w g IHg|g IHg|w g IHg]
    using Formula_encoder_ind; intros Hd label t tree m m' y lo hi H.
  - simpl in H; unfold _stl_expr, bind, call, ret in H. simpl in Hd.
    destruct (signal s t); simpl in H; inversion H as [[Hm Hy Hb]].
    rewrite Hb in Hd; simpl in Hd. lia.
  - destruct (not_cases g) as [[h ->] | Hg].
    + rewrite not_not_eq in H.
      apply bind_ok_inv in H as (? & ? & _ & H).
      apply bind_ok_inv in H as (? & ? & _ & H).
      eapply (IHh h eq_refl); eauto.
    + rewrite not_plain_eq in H by exact Hg.
      apply bind_ok_inv in H as (? & ? & _ & H).
      apply bind_ok_inv in H as (? & res & Hr & H).
      destruct res as [[vx [lo' hi']]|]; unfold bind, call, ret in H;
        simpl in H; inversion H; subst.
      eapply IHg; eauto.
  - eapply (Hnode (And args)); [reflexivity | | exact H].
    intros ma mb rs Hrs. eapply child_runs_forall; [|exact Hrs].
    intros i a na nb [x [l h]] Hin (sub & _ & Hr). simpl.
    apply leaves_dominant_args in Hd. rewrite Forall_forall in IH, Hd.
    eapply IH; eauto.
  - eapply (Hnode (Or args)); [reflexivity | | exact H].
    intros ma mb rs Hrs. eapply child_runs_forall; [|exact Hrs].
    intros i a na nb [x [l h]] Hin (sub & _ & Hr). simpl.
    apply leaves_dominant_args in Hd. rewrite Forall_forall in IH, Hd.
    eapply IH; eauto.
  - eapply (Hnode (Always w g)); [reflexivity | | exact H].
    intros ma mb rs Hrs. eapply child_runs_forall; [|exact Hrs].
    intros i a na nb [x [l h]] Hin (sub & _ & Hr). simpl.
    eapply IHg; eauto.
  - simpl in H; unfold _stl_next in H. eapply IHg; eauto.
  - eapply (Hnode (Eventually w g)); [reflexivity | | exact H].
    intros ma mb rs Hrs. eapply child_runs_forall; [|exact Hrs].
    intros i a na nb [x [l h]] Hin (sub & _ & Hr). simpl.
    eapply IHg; eauto.
Qed.

(** When the declared range [[lo, hi]] of every leaf has [|lo| <= hi] (as a
    symmetric range has), the constant [K] of a min/max call is the upper
    entry of the pair the node returns, and it is at least the largest
    absolute value of the pair of every child handed to the call. *)
Theorem big_m_dominates_children label f t tree k m m' y bds :
  leaves_dominant f ->
  node_kind f = Some k ->
  add_stl_constr label f t tree m = (m', Ok (Some (y, bds))) ->
  exists m1 rs,
    node_children_runs label f t tree m m1 rs /\
    m' = record m1 (OMinMax k label (map fst (somes rs)) (snd bds) false
                            (start_of tree) (index_of tree)) /\
    Forall (fun xb => max_abs (snd xb) <= snd bds) (somes rs).
Proof.
  intros Hd Hk H. destruct bds as [lo hi].
  apply (node_run _ _ _ _ k) in H as (m1 & rs & Hrs & Hc); [|exact Hk].
  assert (Hch : Forall (fun xb => - snd (snd xb) <= fst (snd xb)
                                  <= snd (snd xb)) (somes rs)).
  { destruct f as [s|g|args|args|w g|g|w g]; simpl in Hk;
      try discriminate Hk; simpl in Hrs;
      (eapply child_runs_forall; [|exact Hrs]);
      intros i a na nb [x [l h]] Hin (sub & _ & Hr); simpl.
    - apply leaves_dominant_args in Hd. rewrite Forall_forall in Hd.
      eapply (dominant_bounds a); [apply Hd, Hin | exact Hr].
    - apply leaves_dominant_args in Hd. rewrite Forall_forall in Hd.
      eapply (dominant_bounds a); [apply Hd, Hin | exact Hr].
    - eapply (dominant_bounds g); [exact Hd | exact Hr].
    - eapply (dominant_bounds g); [exact Hd | exact Hr]. }
  destruct (combined_dominant _ _ _ _ _ _ _ _ _ Hc Hch) as [Hlh Hall].
  assert (Hmax : max_abs (lo, hi) = hi) by (unfold max_abs; simpl; lia).
  exists m1, rs; split; [exact Hrs|]. rewrite Hmax in Hall. simpl snd.
  split; [|exact Hall].
  unfold combined in Hc. destruct (somes rs) as [|c coll].
  - destruct Hc as [Hc _]; discriminate Hc.
  - destruct Hc as (lo' & hi' & _ & _ & Hr & ->). inversion Hr; subst.
    unfold max_abs in Hmax; simpl in Hmax. now rewrite Hmax.
Qed.

Lemma big_m_dominates_children_witness :
  exists m1 rs,
    node_children_runs "spec" and_uv 0 None model0 m1 rs /\
    fst (add_stl_constr "spec" and_uv 0 None model0)
    = record m1 (OMinMax Min "spec" (map fst (somes rs)) 5 false None None) /\
    Forall (fun xb => max_abs (snd xb) <= 5) (somes rs).
Proof.
  apply (big_m_dominates_children "spec" and_uv 0 None Min model0
           (fst (add_stl_constr "spec" and_uv 0 None model0))
           "spec" (-2, 5)).
  - simpl; lia.
  - reflexivity.
  - reflexivity.
Defined.

(** * Further properties of the orchestrator *)

(** The outcome of [build_and_solve] from the outcome of the encoder. *)
Lemma orchestrator_run spec model_encode_f spec_obj tree
    outputflag numericfocus threads log_files m1 m2 r :
  model_encode_f (Z.max 0 (horizon spec) + 1) (create_milp "rhc_system")
  = (m1, Ok tt) ->
  add_stl_constr "spec" spec 0 tree m1 = (m2, r) ->
  build_and_solve (Some spec) model_encode_f spec_obj tree
                  outputflag numericfocus threads log_files
  = match r with
    | Ok (Some (fvar, _)) =>
        (extend m2 (OSetObj fvar spec_obj ::
                    solver_calls outputflag numericfocus threads log_files),
         Ok tt)
    | Ok None => (m2, Raise AttributeError)
    | Raise e => (m2, Raise e)
    end.
Proof.
  intros Hcb Henc.
  unfold build_and_solve, build_and_solve_body.
  erewrite bind_ok by exact Hcb.
  unfold bind at 1. unfold bind at 1. rewrite Henc.
  destruct r as [[[fvar bds]|]|e]; try reflexivity.
  unfold set_obj, solver_calls, param_call, set_param, bind, call, ret,
    record, extend.
  destruct outputflag, numericfocus, threads, log_files; simpl;
    rewrite <- ?app_assoc; reflexivity.
Qed.

(** Without a warm-start tree [build_and_solve] cannot fail on a lookup:
    when some leaf of the specification has a signal, the objective
    coefficient is put on the variable named "spec" and the solver is run;
    when none has, it raises AttributeError with the model left as the
    callback built it. *)
Theorem solve_without_tree spec model_encode_f spec_obj
    outputflag numericfocus threads log_files m1 :
  model_encode_f (Z.max 0 (horizon spec) + 1) (create_milp "rhc_system")
  = (m1, Ok tt) ->
  if defined spec 0 then
    exists m2 b,
      add_stl_constr "spec" spec 0 None m1 = (m2, Ok (Some ("spec", b))) /\
      build_and_solve (Some spec) model_encode_f spec_obj None
                      outputflag numericfocus threads log_files
      = (extend m2 (OSetObj "spec" spec_obj ::
                    solver_calls outputflag numericfocus threads log_files),
         Ok tt)
  else
    build_and_solve (Some spec) model_encode_f spec_obj None
                    outputflag numericfocus threads log_files
    = (m1, Raise AttributeError).
Proof.
  intros Hcb.
  destruct (no_tree_ok "spec" spec 0 m1) as (m2 & r & E).
  pose proof (result_defined _ _ _ _ _ _ _ E) as Hd.
  rewrite (orchestrator_run _ _ spec_obj _ outputflag numericfocus threads
             log_files _ _ _ Hcb E).
  destruct r as [[y b]|]; rewrite Hd.
  - apply result_label in E as Ey. subst y. exists m2, b; auto.
  - now rewrite (none_adds_nothing _ _ _ _ _ _ E).
Qed.

Lemma solve_without_tree_witness :
  if defined and_xy 0 then
    exists m2 b,
      add_stl_constr "spec" and_xy 0 None model0
      = (m2, Ok (Some ("spec", b))) /\
      build_and_solve (Some and_xy) no_system 1 None None None (Some 4) true
      = (extend m2 (OSetObj "spec" 1 :: solver_calls None None (Some 4) true),
         Ok tt)
  else
    build_and_solve (Some and_xy) no_system 1 None None None (Some 4) true
    = (model0, Raise AttributeError).
Proof.
  apply (solve_without_tree and_xy no_system 1 None None (Some 4) true model0).
  reflexivity.
Defined.

(** When the encoder raises, [build_and_solve] raises the same exception, an
    IndexError; the model has by then received variable and constraint calls
    of the encoder only: no objective coefficient, no solver parameter, and
    the solver has not been run. *)
Theorem failed_encoding_is_not_solved spec model_encode_f spec_obj tree
    outputflag numericfocus threads log_files m1 m2 e :
  model_encode_f (Z.max 0 (horizon spec) + 1) (create_milp "rhc_system")
  = (m1, Ok tt) ->
  add_stl_constr "spec" spec 0 tree m1 = (m2, Raise e) ->
  build_and_solve (Some spec) model_encode_f spec_obj tree
                  outputflag numericfocus threads log_files
  = (m2, Raise IndexError) /\
  exists ops,
    m2 = extend m1 ops /\
    Forall (fun o => exists y, call_target o = Some y) ops /\
    ~ In OOptimize ops.
Proof.
  intros Hcb E.
  pose proof (encoder_raises_index_error _ _ _ _ _ _ _ E) as ->.
  split; [now rewrite (orchestrator_run _ _ spec_obj _ outputflag numericfocus
                         threads log_files _ _ _ Hcb E)|].
  destruct (encoder_well_named _ _ _ _ _ _ _ E) as (ops & -> & Hall & _).
  exists ops; split; [reflexivity|]. split.
  - eapply Forall_impl; [|exact Hall]. intros o (y & Hy & _); eauto.
  - intros Hin. rewrite Forall_forall in Hall.
    destruct (Hall _ Hin) as (y & Hy & _). discriminate Hy.
Qed.

Lemma failed_encoding_is_not_solved_witness :
  build_and_solve (Some alw_not_x) no_system 1
                  (Some (RTree 7 None [None; None])) None None (Some 4) true
  = (fst (add_stl_constr "spec" alw_not_x 0
                         (Some (RTree 7 None [None; None])) model0),
     Raise IndexError) /\
  exists ops,
    fst (add_stl_constr "spec" alw_not_x 0
                        (Some (RTree 7 None [None; None])) model0)
    = extend model0 ops /\
    Forall (fun o => exists y, call_target o = Some y) ops /\
    ~ In OOptimize ops.
Proof.
  apply (failed_encoding_is_not_solved alw_not_x no_system 1
           (Some (RTree 7 None [None; None])) None None (Some 4) true
           model0 _ IndexError); reflexivity.
Defined.




(** * The direct encoding of Always *)

Lemma py_slice_nonneg {A} (l : list A) i j :
  0 <= i -> 0 <= j ->
  py_slice l i j = firstn (Z.to_nat (j - i)) (skipn (Z.to_nat i) l).
Proof.
  intros Hi Hj. unfold py_slice, slice_index.
  destruct (Z.ltb_spec i 0); [lia|]. destruct (Z.ltb_spec j 0); [lia|].
  set (n := List.length l).
  destruct (Z_lt_le_dec i (Z.of_nat n)) as [Hin | Hin].
  - rewrite (Z.min_l i) by lia.
    destruct (Z_lt_le_dec j (Z.of_nat n)) as [Hjn | Hjn].
    + now rewrite (Z.min_l j) by lia.
    + rewrite (Z.min_r j) by lia.
      rewrite !firstn_all2; [reflexivity | |]; rewrite length_skipn;
        fold n; lia.
  - rewrite (Z.min_r i) by lia.
    rewrite !(skipn_all2 l); [|fold n; lia | fold n; lia].
    now rewrite !firstn_nil.
Qed.

(** For a window that lies within [rho] ([0 <= t + a], [a <= b] and
    [t + b < len(rho)]), [add_always_constr] makes one call of the min
    encoder, on exactly the [b - a + 1] variables
    [rho[t+a], ..., rho[t+b]] in this order, and returns the variable named
    by the label. *)
Theorem always_constr_window nnegative start start_index label a b rho K t m :
  0 <= t + a -> a <= b -> t + b < Z.of_nat (List.length rho) ->
  exists xs,
    add_always_constr nnegative start start_index label a b rho K t m
    = (record m (OMinMax Min label xs K nnegative start start_index),
       Ok label) /\
    List.length xs = Z.to_nat (b - a + 1) /\
    forall k, (k < Z.to_nat (b - a + 1))%nat ->
              nth_error xs k = nth_error rho (Z.to_nat (t + a) + k).
Proof.
  intros Ha Hab Hb.
  exists (py_slice rho (t + a) (t + b + 1)); split; [reflexivity|].
  rewrite py_slice_nonneg by lia.
  replace (t + b + 1 - (t + a)) with (b - a + 1) by lia. split.
  - rewrite length_firstn, length_skipn. lia.
  - intros k Hk. rewrite nth_error_firstn, nth_error_skipn.
    destruct (Nat.ltb_spec k (Z.to_nat (b - a + 1))); [reflexivity | lia].
Qed.

Lemma always_constr_window_witness :
  exists xs,
    add_always_constr true None None "alw" 1 2 ["r0"; "r1"; "r2"; "r3"] 9 1
                      model0
    = (record model0 (OMinMax Min "alw" xs 9 true None None), Ok "alw") /\
    List.length xs = Z.to_nat (2 - 1 + 1) /\
    forall k, (k < Z.to_nat (2 - 1 + 1))%nat ->
              nth_error xs k
              = nth_error ["r0"; "r1"; "r2"; "r3"] (Z.to_nat (1 + 1) + k).
Proof.
  apply (always_constr_window true None None "alw" 1 2
           ["r0"; "r1"; "r2"; "r3"] 9 1 model0); simpl; lia.
Defined.

(** A window that reaches beyond the end of [rho] raises nothing: with
    [0 <= t + a] and [0 <= t + b + 1], the min encoder is called on the part
    of the window that lies within [rho], which may be no variable at all. *)
Theorem always_constr_clips nnegative start start_index label a b rho K t m :
  0 <= t + a -> 0 <= t + b + 1 ->
  exists xs,
    add_always_constr nnegative start start_index label a b rho K t m
    = (record m (OMinMax Min label xs K nnegative start start_index),
       Ok label) /\
    xs = firstn (Z.to_nat (b + 1 - a)) (skipn (Z.to_nat (t + a)) rho) /\
    List.length xs
    = Z.to_nat (Z.min (t + b + 1) (Z.of_nat (List.length rho)) - (t + a)).
Proof.
  intros Ha Hb.
  exists (py_slice rho (t + a) (t + b + 1)); split; [reflexivity|].
  rewrite py_slice_nonneg by lia.
  replace (t + b + 1 - (t + a)) with (b + 1 - a) by lia.
  split; [reflexivity|].
  rewrite length_firstn, length_skipn. lia.
Qed.

Lemma always_constr_clips_witness :
  exists xs,
    add_always_constr true None None "alw" 1 5 ["r0"; "r1"; "r2"; "r3"] 9 1
                      model0
    = (record model0 (OMinMax Min "alw" xs 9 true None None), Ok "alw") /\
    xs = firstn (Z.to_nat (5 + 1 - 1))
                (skipn (Z.to_nat (1 + 1)) ["r0"; "r1"; "r2"; "r3"]) /\
    List.length xs
    = Z.to_nat (Z.min (1 + 5 + 1)
                      (Z.of_nat (List.length ["r0"; "r1"; "r2"; "r3"]))
                - (1 + 1)).
Proof.
  apply (always_constr_clips true None None "alw" 1 5
           ["r0"; "r1"; "r2"; "r3"] 9 1 model0); lia.
Defined.

(** A window that starts before time 0 is not cut at time 0: with
    [-len(rho) <= t + a < 0 <= t + b + 1] the slice counts its start from the
    end of [rho], so the min encoder receives the variables from position
    [len(rho) + t + a] on, up to position [t + b]. *)
Theorem always_constr_negative_start nnegative start start_index label a b
    rho K t m :
  - Z.of_nat (List.length rho) <= t + a -> t + a < 0 -> 0 <= t + b + 1 ->
  exists xs,
    add_always_constr nnegative start start_index label a b rho K t m
    = (record m (OMinMax Min label xs K nnegative start start_index),
       Ok label) /\
    xs = firstn (Z.to_nat (t + b + 1 - (Z.of_nat (List.length rho) + t + a)))
                (skipn (Z.to_nat (Z.of_nat (List.length rho) + t + a)) rho).
Proof.
  intros Hlo Hneg Hb.
  exists (py_slice rho (t + a) (t + b + 1)); split; [reflexivity|].
  rewrite <- (py_slice_nonneg rho) by lia.
  unfold py_slice, slice_index.
  destruct (Z.ltb_spec (t + a) 0); [|lia].
  destruct (Z.ltb_spec (t + b + 1) 0); [lia|].
  destruct (Z.ltb_spec (Z.of_nat (List.length rho) + t + a) 0); [lia|].
  rewrite Z.max_l by lia.
  rewrite (Z.min_l (Z.of_nat (List.length rho) + t + a)) by lia.
  replace (t + a + Z.of_nat (List.length rho))
    with (Z.of_nat (List.length rho) + t + a) by lia.
  reflexivity.
Qed.

Lemma always_constr_negative_start_witness :
  exists xs,
    add_always_constr true None None "alw" (-1) 3 ["r0"; "r1"; "r2"; "r3"] 9 0
                      model0
    = (record model0 (OMinMax Min "alw" xs 9 true None None), Ok "alw") /\
    xs = firstn (Z.to_nat (0 + 3 + 1
                           - (Z.of_nat (List.length ["r0"; "r1"; "r2"; "r3"])
                              + 0 + -1)))
                (skipn (Z.to_nat
                          (Z.of_nat (List.length ["r0"; "r1"; "r2"; "r3"])
                           + 0 + -1))
                       ["r0"; "r1"; "r2"; "r3"]).
Proof.
  apply (always_constr_negative_start true None None "alw" (-1) 3
           ["r0"; "r1"; "r2"; "r3"] 9 0 model0); simpl; lia.
Defined.

(** * Order of the arguments *)

Lemma Forall2_functional {A B} (F : A -> B -> Prop) l :
  (forall a b1 b2, F a b1 -> F a b2 -> b1 = b2) ->
  forall o1 o2, Forall2 F l o1 -> Forall2 F l o2 -> o1 = o2.
Proof.
  intros HF; induction l as [|a l IH]; intros o1 o2 H1 H2;
    inversion H1; inversion H2; subst; [reflexivity|].
  f_equal; eauto.
Qed.

Lemma Forall2_perm_exists {A B} (F : A -> B -> Prop) l l' :
  Permutation l l' ->
  forall o, Forall2 F l o -> exists o', Forall2 F l' o'.
Proof.
  induction 1 as [|x l l' _ IH|x y l|l l' l'' _ IH1 _ IH2]; intros o Ho.
  - exists []; constructor.
  - inversion Ho as [|? b ? o0 Hx Hl]; subst.
    destruct (IH _ Hl) as (o' & Ho'). exists (b :: o'); now constructor.
  - inversion Ho as [|? b ? o0 Hy Hl]; subst.
    inversion Hl as [|? c ? o1 Hx Hl']; subst.
    exists (c :: b :: o1); repeat constructor; assumption.
  - destruct (IH1 _ Ho) as (o' & Ho'). eapply IH2; eauto.
Qed.

Lemma Forall2_perm {A B} (F : A -> B -> Prop) l l' :
  (forall a b1 b2, F a b1 -> F a b2 -> b1 = b2) ->
  Permutation l l' ->
  forall o o', Forall2 F l o -> Forall2 F l' o' -> Permutation o o'.
Proof.
  intros HF; induction 1 as [|x l l' Hp IH|x y l|l l' l'' Hp1 IH1 Hp2 IH2];
    intros o o' Ho Ho'.
  - inversion Ho; inversion Ho'; constructor.
  - inversion Ho as [|? b ? o0 Hx Hl]; subst.
    inversion Ho' as [|? b' ? o0' Hx' Hl']; subst.
    rewrite (HF _ _ _ Hx Hx'). constructor. eapply IH; eauto.
  - inversion Ho as [|? b ? o0 Hy Hl]; subst.
    inversion Hl as [|? c ? o1 Hx Hl1]; subst.
    inversion Ho' as [|? c' ? o0' Hx' Hl']; subst.
    inversion Hl' as [|? b' ? o1' Hy' Hl1']; subst.
    rewrite (HF _ _ _ Hx Hx'), (HF _ _ _ Hy Hy').
    rewrite (Forall2_functional F l HF _ _ Hl1 Hl1'). apply perm_swap.
  - destruct (Forall2_perm_exists F _ _ Hp1 _ Ho) as (om & Hom).
    apply (perm_trans (IH1 _ _ Ho Hom) (IH2 _ _ Hom Ho')).
Qed.

Lemma somes_perm {A} (l l' : list (option A)) :
  Permutation l l' -> Permutation (somes l) (somes l').
Proof.
  induction 1 as [|[x|] l l' _ IH|[x|] [y|] l|l l' l'' _ IH1 _ IH2]; simpl;
    try reflexivity; try assumption.
  - now constructor.
  - apply perm_swap.
  - eapply perm_trans; eauto.
Qed.

Lemma somes_map_snd (rs : list Enc) :
  somes (map (option_map snd) rs) = map snd (somes rs).
Proof.
  induction rs as [|[xb|] rs IH]; simpl; [reflexivity | now rewrite IH | exact IH].
Qed.

Lemma is_max_perm x l l' : Permutation l l' -> is_max x l -> is_max x l'.
Proof.
  intros Hp [Hin Hall]; split.
  - eapply Permutation_in; eauto.
  - rewrite Forall_forall in *. intros y Hy. apply Hall.
    eapply Permutation_in; [apply Permutation_sym|]; eauto.
Qed.

Lemma has_bounds_functional t a b1 b2 :
  has_bounds t a b1 -> has_bounds t a b2 -> b1 = b2.
Proof.
  intros (l1 & tr1 & m1 & m1' & r1 & H1 & <-)
         (l2 & tr2 & m2 & m2' & r2 & H2 & <-).
  eapply encoder_bounds_indep; eauto.
Qed.

Lemma arg_runs_bounds label op t tree l :
  forall i m m' rs,
    child_runs (arg_run label op t tree) i l m m' rs ->
    Forall2 (has_bounds t) l (map (option_map snd) rs).
Proof.
  induction l as [|a l IH]; intros i m m' rs H; inversion H; subst; simpl.
  - constructor.
  - constructor; [|eapply IH; eauto].
    match goal with Hr : arg_run _ _ _ _ _ _ _ _ _ |- _ =>
      destruct Hr as (sub & _ & Hr) end.
    do 5 eexists; split; [eassumption | reflexivity].
Qed.

Lemma combined_perm_bounds k1 k2 l1 l2 tr1 tr2 coll1 coll2 ma ma' mb mb' r1 r2 :
  combined k1 l1 tr1 coll1 ma ma' r1 ->
  combined k2 l2 tr2 coll2 mb mb' r2 ->
  Permutation (map snd coll1) (map snd coll2) ->
  option_map snd r1 = option_map snd r2.
Proof.
  unfold combined; intros H1 H2 Hp.
  destruct coll1 as [|c1 coll1], coll2 as [|c2 coll2].
  - destruct H1 as [-> _], H2 as [-> _]; reflexivity.
  - apply Permutation_nil in Hp; discriminate Hp.
  - apply Permutation_sym, Permutation_nil in Hp; discriminate Hp.
  - destruct H1 as (lo1 & hi1 & Hlo1 & Hhi1 & -> & _).
    destruct H2 as (lo2 & hi2 & Hlo2 & Hhi2 & -> & _).
    apply (is_max_perm _ _ _ (Permutation_map fst Hp)) in Hlo1.
    apply (is_max_perm _ _ _ (Permutation_map snd Hp)) in Hhi1.
    simpl.
    now rewrite (is_max_unique _ _ _ Hlo1 Hlo2), (is_max_unique _ _ _ Hhi1 Hhi2).
Qed.

(** The order of the arguments of an And or Or node matters for the labels
    only: encoded at the same time, two nodes (And or Or, in any mix) whose
    argument lists are permutations of each other return the same bounds,
    hence hand the same [K] to the min/max encoder, and are None together. *)
Theorem argument_order_keeps_bounds args1 args2 t l1 l2 tr1 tr2
    m1 m2 m1' m2' r1 r2 (conj1 conj2 : bool) :
  Permutation args1 args2 ->
  add_stl_constr l1 (if conj1 then And args1 else Or args1) t tr1 m1
  = (m1', Ok r1) ->
  add_stl_constr l2 (if conj2 then And args2 else Or args2) t tr2 m2
  = (m2', Ok r2) ->
  option_map snd r1 = option_map snd r2.
Proof.
  intros Hp H1 H2.
  assert (Hruns : forall (c : bool) label args tree m m' r,
    add_stl_constr label (if c then And args else Or args) t tree m
    = (m', Ok r) ->
    exists k op m0 rs,
      child_runs (arg_run label op t tree) 0 args m m0 rs /\
      combined k label tree (somes rs) m0 m' r).
  { intros c label args tree m m' r H. destruct c.
    - apply (node_run _ _ _ _ Min) in H as (m0 & rs & Hrs & Hc);
        [|reflexivity].
      exists Min, "and", m0, rs; auto.
    - apply (node_run _ _ _ _ Max) in H as (m0 & rs & Hrs & Hc);
        [|reflexivity].
      exists Max, "or", m0, rs; auto. }
  apply Hruns in H1 as (k1 & op1 & ma & rs1 & Hr1 & Hc1).
  apply Hruns in H2 as (k2 & op2 & mb & rs2 & Hr2 & Hc2).
  eapply combined_perm_bounds; [exact Hc1 | exact Hc2 |].
  rewrite <- !somes_map_snd. apply somes_perm.
  eapply (Forall2_perm (has_bounds t)); [|exact Hp| |].
  - intros a b1 b2; apply has_bounds_functional.
  - eapply arg_runs_bounds; eauto.
  - eapply arg_runs_bounds; eauto.
Qed.

Lemma argument_order_keeps_bounds_witness :
  option_map snd (Some ("p", (-2, 3))) = option_map snd (Some ("q", (-2, 3))).
Proof.
  apply (argument_order_keeps_bounds
           [Expr sig_x; Expr sig_y] [Expr sig_y; Expr sig_x] 0 "p" "q"
           None None model0 model0
           (fst (add_stl_constr "p" (And [Expr sig_x; Expr sig_y]) 0 None
                                model0))
           (fst (add_stl_constr "q" (Or [Expr sig_y; Expr sig_x]) 0 None
                                model0))
           (Some ("p", (-2, 3))) (Some ("q", (-2, 3))) true false).
  - apply perm_swap.
  - reflexivity.
  - reflexivity.
Defined.
